(** * VotingBlock: a shallow embedding of the voting-session contract

    The contract [VotingBlock] keeps a registry of time-bounded voting
    sessions.  This development embeds its storage layout, its three
    state-changing entry points ([createVotingSession], [vote],
    [calculateResults]) and its view [getWinners] as executable
    definitions in a small state-and-revert monad, and proves the
    properties the specification states about them.

    Conventions.
    - A [uint] (256 bits) is an [N]; Solidity 0.8 arithmetic is checked,
      so an addition whose result exceeds [MAX_UINT] reverts with a
      panic instead of wrapping ([checked_add]).
    - An [address] is an [N] as well.
    - [mapping(uint => VotingSession)] is a [gmap] read with the
      all-zero session as default; [mapping(address => bool)] is the
      finite set of the addresses mapped to [true].
    - Dynamic arrays are lists; an index out of range reverts with a
      panic.  Loop counters and array lengths range over the length of
      an array and are natural numbers.
    - [keccak256] is a parameter of the development: nothing is assumed
      about it. *)

From stdpp Require Import base numbers list strings gmap sets sorting.



(** ** Data model *)

Abbreviation uint := N (only parsing).
Abbreviation address := N (only parsing).

Definition MAX_UINT : N := (2 ^ 256 - 1)%N.

Record VotingSession : Type := mkSession {
  title : string;
  candidates : list string;
  isActive : bool;
  startTimestamp : uint;
  endTimestamp : uint;
  resultsCalculated : bool;
  finalTally : list uint;
  hasVoted : gset address
}.

(** The value every slot of [votingSessions] has before it is written. *)
Definition default_session : VotingSession :=
  mkSession "" [] false 0%N 0%N false [] ∅.

Inductive Event : Type :=
| VotingSessionCreated (sessionId : uint) (title : string)
    (candidates : list string) (startTimestamp endTimestamp : uint)
| VoteCast (sessionId : uint) (voter : address) (candidateIndex : uint)
| ResultsCalculated (sessionId : uint) (tally : list uint).

(** Contract storage together with the log of emitted events. *)
Record State : Type := mkState {
  votingSessions : gmap N VotingSession;
  votingSessionCount : uint;
  events : list Event
}.

(** The state right after deployment. *)
Definition init : State := mkState ∅ 0%N [].

(** The failures of a call: one per [require] message of the contract,
    and the two compiler-inserted panics. *)
Inductive Error : Set :=
| InsufficientCandidates
| InvalidDuration
| DuplicateCandidate
| SessionNotActive
| SessionEnded
| AlreadyVoted
| InvalidCandidateIndex
| UnknownSession
| AlreadyFinalized
| SessionStillActive
| ResultsAlreadyCalculated
| ResultsNotReady
| ArithmeticOverflow
| IndexOutOfBounds.

Definition revert_reason (e : Error) : string :=
  match e with
  | InsufficientCandidates => "Need at least two candidates."
  | InvalidDuration => "Duration must be greater than zero."
  | DuplicateCandidate => "Duplicate candidate found."
  | SessionNotActive => "Voting session is not active."
  | SessionEnded => "Voting session has ended."
  | AlreadyVoted => "You have already voted."
  | InvalidCandidateIndex => "Invalid candidate index."
  | UnknownSession => "Invalid session ID."
  | AlreadyFinalized => "Session already finalized."
  | SessionStillActive => "Voting period is still active."
  | ResultsAlreadyCalculated => "Results already calculated."
  | ResultsNotReady => "Results not calculated yet."
  | ArithmeticOverflow => "Panic(0x11)"
  | IndexOutOfBounds => "Panic(0x32)"
  end.

#[global] Instance Error_eq_dec : EqDecision Error.
Proof. solve_decision. Defined.

(** Field writes of a session held in storage. *)
Definition set_title (x : string) (s : VotingSession) : VotingSession :=
  mkSession x (candidates s) (isActive s) (startTimestamp s)
            (endTimestamp s) (resultsCalculated s) (finalTally s) (hasVoted s).
Definition set_candidates (x : list string) (s : VotingSession) : VotingSession :=
  mkSession (title s) x (isActive s) (startTimestamp s)
            (endTimestamp s) (resultsCalculated s) (finalTally s) (hasVoted s).
Definition set_isActive (x : bool) (s : VotingSession) : VotingSession :=
  mkSession (title s) (candidates s) x (startTimestamp s)
            (endTimestamp s) (resultsCalculated s) (finalTally s) (hasVoted s).
Definition set_startTimestamp (x : uint) (s : VotingSession) : VotingSession :=
  mkSession (title s) (candidates s) (isActive s) x
            (endTimestamp s) (resultsCalculated s) (finalTally s) (hasVoted s).
Definition set_endTimestamp (x : uint) (s : VotingSession) : VotingSession :=
  mkSession (title s) (candidates s) (isActive s) (startTimestamp s)
            x (resultsCalculated s) (finalTally s) (hasVoted s).
Definition set_resultsCalculated (x : bool) (s : VotingSession) : VotingSession :=
  mkSession (title s) (candidates s) (isActive s) (startTimestamp s)
            (endTimestamp s) x (finalTally s) (hasVoted s).
Definition set_finalTally (x : list uint) (s : VotingSession) : VotingSession :=
  mkSession (title s) (candidates s) (isActive s) (startTimestamp s)
            (endTimestamp s) (resultsCalculated s) x (hasVoted s).
Definition set_hasVoted (x : gset address) (s : VotingSession) : VotingSession :=
  mkSession (title s) (candidates s) (isActive s) (startTimestamp s)
            (endTimestamp s) (resultsCalculated s) (finalTally s) x.

(** [votingSessions[sid]] read from storage. *)
Definition session_at (st : State) (sid : uint) : VotingSession :=
  default default_session (votingSessions st !! sid).

(** ** The execution monad

    A computation runs from a state and either finishes with a value
    and a state, or stops at a failed [require] or a panic.  The state
    at the point of failure is kept, so that what a failing call had
    already written is visible; [transact] is where the revert throws
    it away. *)

Inductive Outcome (A : Type) : Type :=
| Done (a : A) (st : State)
| Reverted (e : Error) (st : State).
Arguments Done {A} a st.
Arguments Reverted {A} e st.

Definition M (A : Type) : Type := State → Outcome A.

Definition ret {A} (a : A) : M A := λ st, Done a st.

Definition bind {A B} (m : M A) (k : A → M B) : M B :=
  λ st, match m st with
        | Done a st' => k a st'
        | Reverted e st' => Reverted e st'
        end.

Declare Scope vm_scope.
Delimit Scope vm_scope with vm.
Bind Scope vm_scope with M.
Notation "'let!' x ':=' m 'in' k" := (bind m (λ x, k))
  (at level 10, x pattern, m at level 100, k at level 200) : vm_scope.
Notation "m ';;;' k" := (bind m (λ _, k))
  (at level 100, k at level 200, right associativity) : vm_scope.
Local Open Scope vm_scope.

Definition fail {A} (e : Error) : M A := λ st, Reverted e st.

Definition require (b : bool) (e : Error) : M unit :=
  if b then ret tt else fail e.

Definition gets {A} (f : State → A) : M A := λ st, Done (f st) st.

Definition modify (f : State → State) : M unit := λ st, Done tt (f st).

(** [session.field] read through the storage reference. *)
Definition sload {A} (sid : uint) (field : VotingSession → A) : M A :=
  gets (λ st, field (session_at st sid)).

(** [session.field = x] written through the storage reference. *)
Definition sstore (sid : uint) (upd : VotingSession → VotingSession) : M unit :=
  modify (λ st, mkState (<[sid := upd (session_at st sid)]> (votingSessions st))
                        (votingSessionCount st) (events st)).

Definition set_votingSessionCount (n : uint) : M unit :=
  modify (λ st, mkState (votingSessions st) n (events st)).

Definition emit (ev : Event) : M unit :=
  modify (λ st, mkState (votingSessions st) (votingSessionCount st)
                        (events st ++ [ev])).

(** Checked addition of Solidity 0.8. *)
Definition checked_add (a b : uint) : M uint :=
  if (a + b <=? MAX_UINT)%N then ret (a + b)%N else fail ArithmeticOverflow.

(** [a[i]] with its bounds check. *)
Definition array_get {A} (a : list A) (i : nat) : M A :=
  match a !! i with
  | Some x => ret x
  | None => fail IndexOutOfBounds
  end.

(** [a[i] = x] with its bounds check. *)
Definition array_set {A} (a : list A) (i : nat) (x : A) : M (list A) :=
  if decide (i < length a) then ret (<[i := x]> a) else fail IndexOutOfBounds.

(** [for (uint i = ...; ...; i++) body], the loop indices given as a
    list; [acc] carries the local variables the body assigns. *)
Fixpoint for_each {A} (body : nat → A → M A) (indices : list nat) (acc : A) : M A :=
  match indices with
  | [] => ret acc
  | i :: rest => let! acc' := body i acc in for_each body rest acc'
  end.

(** [for (uint i = lo; i < hi; i++) body]. *)
Definition for_range {A} (lo hi : nat) (body : nat → A → M A) (acc : A) : M A :=
  for_each body (seq lo (hi - lo)) acc.

(** A call as a transaction: a failure reverts every write. *)
Definition transact {A} (m : M A) (st : State) : State * (Error + A) :=
  match m st with
  | Done a st' => (st', inr a)
  | Reverted e _ => (st, inl e)
  end.

(** ** The contract *)

(** [vote] (contract lines 76-88). *)
Definition vote (_sessionId _candidateIndex : uint)
    (msg_sender : address) (block_timestamp : uint) : M unit :=
  let! active := sload _sessionId isActive in
  require active SessionNotActive;;;
  let! endTs := sload _sessionId endTimestamp in
  require (block_timestamp <=? endTs)%N SessionEnded;;;
  let! voted := sload _sessionId (λ s, bool_decide (msg_sender ∈ hasVoted s)) in
  require (negb voted) AlreadyVoted;;;
  let! len := sload _sessionId (λ s, length (candidates s)) in
  require (_candidateIndex <? N.of_nat len)%N InvalidCandidateIndex;;;
  sstore _sessionId (λ s, set_hasVoted ({[msg_sender]} ∪ hasVoted s) s);;;
  let! tally := sload _sessionId finalTally in
  let! count := array_get tally (N.to_nat _candidateIndex) in
  let! count' := checked_add count 1 in
  sstore _sessionId (λ s,
    set_finalTally (<[N.to_nat _candidateIndex := count']> (finalTally s)) s);;;
  emit (VoteCast _sessionId msg_sender _candidateIndex).

(** [calculateResults] (contract lines 90-103). *)
Definition calculateResults (_sessionId : uint) (block_timestamp : uint) : M unit :=
  let! count := gets votingSessionCount in
  require (_sessionId <? count)%N UnknownSession;;;
  let! active := sload _sessionId isActive in
  require active AlreadyFinalized;;;
  let! endTs := sload _sessionId endTimestamp in
  require (endTs <? block_timestamp)%N SessionStillActive;;;
  let! calculated := sload _sessionId resultsCalculated in
  require (negb calculated) ResultsAlreadyCalculated;;;
  sstore _sessionId (set_resultsCalculated true);;;
  sstore _sessionId (set_isActive false);;;
  let! tally := sload _sessionId finalTally in
  emit (ResultsCalculated _sessionId tally).

(** First loop of [getWinners]: the running maximum and the number of
    entries equal to it. *)
Definition scan_highest (tally : list uint) (i : nat) (acc : uint * nat)
    : M (uint * nat) :=
  let '(highestVoteCount, winnersCount) := acc in
  let! t := array_get tally i in
  if (highestVoteCount <? t)%N then ret (t, 1)
  else if (t =? highestVoteCount)%N then ret (highestVoteCount, winnersCount + 1)
  else ret (highestVoteCount, winnersCount).

(** Second loop of [getWinners]: the names are written at [index]. *)
Definition collect_winners (tally : list uint) (names : list string)
    (highestVoteCount : uint) (i : nat) (acc : list string * nat)
    : M (list string * nat) :=
  let '(winners, index) := acc in
  let! t := array_get tally i in
  if (t =? highestVoteCount)%N then
    let! name := array_get names i in
    let! winners' := array_set winners index name in
    ret (winners', index + 1)
  else ret (winners, index).

(** [getWinners] (contract lines 105-129). *)
Definition getWinners (_sessionId : uint) : M (list string) :=
  let! calculated := sload _sessionId resultsCalculated in
  require calculated ResultsNotReady;;;
  let! tally := sload _sessionId finalTally in
  let! names := sload _sessionId candidates in
  let! (highestVoteCount, winnersCount) :=
    for_range 0 (length tally) (scan_highest tally) (0%N, 0) in
  let winners := replicate winnersCount "" in
  let! (winners', _) :=
    for_range 0 (length tally) (collect_winners tally names highestVoteCount)
              (winners, 0) in
  ret winners'.

(** ** Transactions and traces *)

Inductive Call : Type :=
| CreateVotingSession (_title : string) (_candidates : list string)
    (_durationInSeconds : uint)
| Vote (_sessionId _candidateIndex : uint)
| CalculateResults (_sessionId : uint).

(** A transaction: the caller, the timestamp of its block, the call. *)
Record Tx : Type := mkTx {
  tx_sender : address;
  tx_timestamp : uint;
  tx_call : Call
}.

Section Contract.

(** The hash function the duplicate check compares candidates with. *)
Variable keccak256 : string → N.

(** [createVotingSession] (contract lines 39-74).  The counter is
    incremented and four fields are written before the checked addition
    that computes the end time. *)
Definition createVotingSession
    (_title : string) (_candidates : list string) (_durationInSeconds : uint)
    (block_timestamp : uint) : M uint :=
  require (bool_decide (1 < length _candidates)) InsufficientCandidates;;;
  require (0 <? _durationInSeconds)%N InvalidDuration;;;
  for_range 0 (length _candidates) (λ i _,
    for_range (i + 1) (length _candidates) (λ j _,
      let! ci := array_get _candidates i in
      let! cj := array_get _candidates j in
      require (negb (keccak256 ci =? keccak256 cj)%N) DuplicateCandidate) tt) tt;;;
  let! sessionId := gets votingSessionCount in
  let! next := checked_add sessionId 1 in
  set_votingSessionCount next;;;
  sstore sessionId (set_title _title);;;
  sstore sessionId (set_candidates _candidates);;;
  sstore sessionId (set_isActive true);;;
  sstore sessionId (set_startTimestamp block_timestamp);;;
  let! endTs := checked_add block_timestamp _durationInSeconds in
  sstore sessionId (set_endTimestamp endTs);;;
  sstore sessionId (set_finalTally (replicate (length _candidates) 0%N));;;
  let! startTs := sload sessionId startTimestamp in
  let! endTs' := sload sessionId endTimestamp in
  emit (VotingSessionCreated sessionId _title _candidates startTs endTs');;;
  ret sessionId.

(** Two positions of the candidate list carry the same digest. *)
Definition digest_clash (c : list string) : Prop :=
  ∃ i j ci cj, i < j ∧ c !! i = Some ci ∧ c !! j = Some cj ∧
               keccak256 ci = keccak256 cj.

(** The loop nest of [createVotingSession], verbatim, under a name of
    its own so that lemmas can be stated about it. *)
Definition duplicate_scan (c : list string) : M unit :=
  for_range 0 (length c) (λ i _,
    for_range (i + 1) (length c) (λ j _,
      let! ci := array_get c i in
      let! cj := array_get c j in
      require (negb (keccak256 ci =? keccak256 cj)%N) DuplicateCandidate) tt) tt.

(** The entry point a transaction calls; the value returned is the new
    session id for [createVotingSession] and nothing for the others. *)
Definition dispatch (tx : Tx) : M (option uint) :=
  match tx_call tx with
  | CreateVotingSession t c d =>
      let! sessionId := createVotingSession t c d (tx_timestamp tx) in
      ret (Some sessionId)
  | Vote sid idx => vote sid idx (tx_sender tx) (tx_timestamp tx);;; ret None
  | CalculateResults sid => calculateResults sid (tx_timestamp tx);;; ret None
  end.

Definition execute (st : State) (tx : Tx) : State * (Error + option uint) :=
  transact (dispatch tx) st.

(** The state after a sequence of transactions, failed ones included. *)
Definition run (st : State) (txs : list Tx) : State :=
  foldl (λ st tx, (execute st tx).1) st txs.

(** The states the deployed contract can be in.  Timestamps along a
    trace are not constrained, so every property of the reachable
    states holds in particular when they never decrease. *)
Definition reachable (st : State) : Prop := ∃ txs, st = run init txs.

(** The session ids handed out along a trace, in order. *)
Fixpoint created_ids (st : State) (txs : list Tx) : list uint :=
  match txs with
  | [] => []
  | tx :: rest =>
      match execute st tx with
      | (st', inr (Some sessionId)) => sessionId :: created_ids st' rest
      | (st', _) => created_ids st' rest
      end
  end.

End Contract.

(** A concrete digest (the bytes read as a base-257 numeral), used
    where an example has to be evaluated; the theorems hold for every
    digest function. *)
Fixpoint digest_from (acc : N) (s : string) : N :=
  match s with
  | EmptyString => acc
  | String c rest => digest_from (acc * 257 + N.succ (Ascii.N_of_ascii c))%N rest
  end.

Definition digest (s : string) : N := digest_from 0%N s.

(** ** States left by accepted calls *)

(** The session [createVotingSession] leaves in the slot it writes:
    the two fields it does not assign keep what the slot held. *)
Definition created_session (old : VotingSession) (t : string)
    (c : list string) (d now : uint) : VotingSession :=
  mkSession t c true now (now + d)%N (resultsCalculated old)
            (replicate (length c) 0%N) (hasVoted old).

Definition create_post (st : State) (t : string) (c : list string)
    (d now : uint) : State :=
  let sid := votingSessionCount st in
  mkState (<[sid := created_session (session_at st sid) t c d now]>
             (votingSessions st))
          (sid + 1)%N
          (events st ++ [VotingSessionCreated sid t c now (now + d)%N]).

(** The state an accepted vote leaves, [t] being the count the chosen
    candidate had. *)
Definition vote_post (st : State) (sid idx : uint) (a : address) (t : uint)
    : State :=
  let s := session_at st sid in
  mkState (<[sid := set_finalTally (<[N.to_nat idx := (t + 1)%N]> (finalTally s))
                      (set_hasVoted ({[a]} ∪ hasVoted s) s)]>
             (votingSessions st))
          (votingSessionCount st)
          (events st ++ [VoteCast sid a idx]).

(** The state a successful [calculateResults] leaves. *)
Definition finalize_post (st : State) (sid : uint) : State :=
  let s := session_at st sid in
  mkState (<[sid := set_isActive false (set_resultsCalculated true s)]>
             (votingSessions st))
          (votingSessionCount st)
          (events st ++ [ResultsCalculated sid (finalTally s)]).

(** What [execute] returns, in terms of the call it dispatches to. *)
Definition tag {A B} (f : A → B) (r : State * (Error + A)) : State * (Error + B) :=
  match r with
  | (st, inr a) => (st, inr (f a))
  | (st, inl e) => (st, inl e)
  end.

(** ** Invariants of the reachable states *)

Definition sum_tally (l : list uint) : N := foldr N.add 0%N l.

Record session_ok (s : VotingSession) : Prop := mk_session_ok {
  ok_lengths : length (finalTally s) = length (candidates s);
  ok_sum : sum_tally (finalTally s) = N.of_nat (size (hasVoted s));
  ok_range : Forall (λ t, (0 ≤ t ≤ MAX_UINT)%N) (finalTally s);
  ok_flags : resultsCalculated s = true → isActive s = false;
  ok_created :
    isActive s = true ∨ resultsCalculated s = true →
    2 ≤ length (candidates s)
}.

Definition state_ok (st : State) : Prop :=
  ∀ sid s, votingSessions st !! sid = Some s →
           (sid < votingSessionCount st)%N ∧ session_ok s.

(** ** The specification of the winners and of the effects of a call *)

(** The specification of [getWinners]: the maximum of the tally, the
    positions that attain it in increasing order, and the names at
    those positions. *)
Definition max_tally (tally : list uint) : N := foldr N.max 0%N tally.

Definition top_indices (tally : list uint) : list nat :=
  filter (λ i, tally !! i = Some (max_tally tally)) (seq 0 (length tally)).

Definition winners_of (s : VotingSession) : list string :=
  (λ i, candidates s !!! i) <$> top_indices (finalTally s).

(** What the specification lists as the effects of an accepted call:
    [committed st tx r st'] says that [st'] is [st] with exactly those
    effects applied and that [r] is the value returned. *)
Definition committed (st : State) (tx : Tx) (r : option uint) (st' : State)
    : Prop :=
  match tx_call tx with
  | CreateVotingSession t c d =>
      let sid := votingSessionCount st in
      let now := tx_timestamp tx in
      r = Some sid ∧
      st' = mkState
              (<[sid := mkSession t c true now (now + d)%N false
                                  (replicate (length c) 0%N) ∅]>
                 (votingSessions st))
              (sid + 1)%N
              (events st ++ [VotingSessionCreated sid t c now (now + d)%N])
  | Vote sid idx =>
      let s := session_at st sid in
      r = None ∧
      ∃ t, finalTally s !! N.to_nat idx = Some t ∧
      st' = mkState
              (<[sid := mkSession (title s) (candidates s) (isActive s)
                          (startTimestamp s) (endTimestamp s)
                          (resultsCalculated s)
                          (<[N.to_nat idx := (t + 1)%N]> (finalTally s))
                          ({[tx_sender tx]} ∪ hasVoted s)]>
                 (votingSessions st))
              (votingSessionCount st)
              (events st ++ [VoteCast sid (tx_sender tx) idx])
  | CalculateResults sid =>
      let s := session_at st sid in
      r = None ∧
      st' = mkState
              (<[sid := mkSession (title s) (candidates s) false
                          (startTimestamp s) (endTimestamp s) true
                          (finalTally s) (hasVoted s)]>
                 (votingSessions st))
              (votingSessionCount st)
              (events st ++ [ResultsCalculated sid (finalTally s)])
  end.

(** ** A worked example: the fruit poll of the contract's tests *)

Definition fruit_create : Tx :=
  mkTx 9%N 100%N
       (CreateVotingSession "Best fruit" ["Banana"; "Watermelon"; "Papaya"] 60%N).

Definition fruit_votes : list Tx :=
  [mkTx 1%N 110%N (Vote 0%N 0%N);
   mkTx 2%N 120%N (Vote 0%N 1%N);
   mkTx 3%N 130%N (Vote 0%N 1%N)].

Definition fruit_finalize : Tx := mkTx 9%N 161%N (CalculateResults 0%N).

(** The poll with its three votes cast, not yet finalized. *)
Definition fruit_open : State := run digest init (fruit_create :: fruit_votes).

(** The poll after [calculateResults]. *)
Definition fruit_final : State :=
  run digest init (fruit_create :: fruit_votes ++ [fruit_finalize]).

(** A fourth voter, a late voter and a second poll. *)
Definition fruit_more : list Tx :=
  [mkTx 4%N 140%N (Vote 0%N 2%N);
   mkTx 5%N 161%N (Vote 0%N 0%N);
   mkTx 9%N 170%N (CreateVotingSession "Best drink" ["Tea"; "Coffee"] 30%N)].

(** ** The read accessors *)

Module View.

(** [getSessionInfo] (contract lines 131-148): six fields of the slot,
    whatever it holds. *)
Definition getSessionInfo (_sessionId : uint)
    : M (string * list string * bool * bool * uint * uint) :=
  let! title := sload _sessionId title in
  let! candidates := sload _sessionId candidates in
  let! isActive := sload _sessionId isActive in
  let! resultsCalculated := sload _sessionId resultsCalculated in
  let! startTimestamp := sload _sessionId startTimestamp in
  let! endTimestamp := sload _sessionId endTimestamp in
  ret (title, candidates, isActive, resultsCalculated,
       startTimestamp, endTimestamp).

(** [getTally] (contract lines 150-153). *)
Definition getTally (_sessionId : uint) : M (list uint) :=
  sload _sessionId finalTally.

(** [hasVoted] (contract lines 155-157). *)
Definition hasVoted (_sessionId : uint) (_voter : address) : M bool :=
  sload _sessionId (λ s, bool_decide (_voter ∈ hasVoted s)).

End View.

(** ** Further invariants of the reachable states *)

(** What holds of every slot below the session counter. *)
Record session_created (s : VotingSession) : Prop := mk_session_created {
  cr_window : (startTimestamp s < endTimestamp s ≤ MAX_UINT)%N;
  cr_distinct : NoDup (candidates s);
  cr_phase : isActive s = negb (resultsCalculated s)
}.

Definition state_dense (st : State) : Prop :=
  ∀ sid, (sid < votingSessionCount st)%N →
         ∃ s, votingSessions st !! sid = Some s ∧ session_created s.

(** The slot a call writes to, if it writes at all. *)
Definition target (st : State) (tx : Tx) : uint :=
  match tx_call tx with
  | CreateVotingSession _ _ _ => votingSessionCount st
  | Vote sid _ => sid
  | CalculateResults sid => sid
  end.

(** ** Reading the event log *)

Definition event_session (ev : Event) : uint :=
  match ev with
  | VotingSessionCreated sid _ _ _ _ => sid
  | VoteCast sid _ _ => sid
  | ResultsCalculated sid _ => sid
  end.

(** The number of [VoteCast] events of session [sid] for the candidate
    at position [i]: the tally an observer of the log computes. *)
Fixpoint votes_in_log (sid : uint) (i : nat) (log : list Event) : N :=
  match log with
  | [] => 0%N
  | VoteCast sid' _ idx :: rest =>
      if decide (sid' = sid ∧ N.to_nat idx = i)
      then (1 + votes_in_log sid i rest)%N
      else votes_in_log sid i rest
  | _ :: rest => votes_in_log sid i rest
  end.

(** The session ids of the [VotingSessionCreated] events, in order. *)
Fixpoint sessions_in_log (log : list Event) : list uint :=
  match log with
  | [] => []
  | VotingSessionCreated sid _ _ _ _ :: rest => sid :: sessions_in_log rest
  | _ :: rest => sessions_in_log rest
  end.

(** How the log and the storage agree. *)
Record log_ok (st : State) : Prop := mk_log_ok {
  log_known : ∀ ev, ev ∈ events st →
      (event_session ev < votingSessionCount st)%N;
  log_tally : ∀ sid i t,
      finalTally (session_at st sid) !! i = Some t →
      t = votes_in_log sid i (events st);
  log_voters : ∀ sid a,
      a ∈ hasVoted (session_at st sid) ↔
      ∃ idx, VoteCast sid a idx ∈ events st;
  log_results : ∀ sid tally,
      ResultsCalculated sid tally ∈ events st →
      resultsCalculated (session_at st sid) = true ∧
      finalTally (session_at st sid) = tally;
  log_created : ∀ sid t c startTs endTs,
      VotingSessionCreated sid t c startTs endTs ∈ events st →
      let s := session_at st sid in
      title s = t ∧ candidates s = c ∧
      startTimestamp s = startTs ∧ endTimestamp s = endTs;
  log_sessions :
      sessions_in_log (events st) =
      N.of_nat <$> seq 0 (N.to_nat (votingSessionCount st))
}.

(** ** Running the monad *)

Ltac vm_unfold :=
  unfold sload, sstore, emit, checked_add, array_get, array_set,
    set_votingSessionCount, require in *;
  unfold bind, gets, modify, ret, fail in *.

Lemma session_at_insert_eq m c ev sid x :
  session_at (mkState (<[sid := x]> m) c ev) sid = x.
Proof. unfold session_at; cbn. by rewrite lookup_insert_eq. Qed.

Lemma session_at_insert_ne m c ev sid sid' x :
  sid ≠ sid' →
  session_at (mkState (<[sid := x]> m) c ev) sid' = session_at (mkState m c ev) sid'.
Proof. intros Hne. unfold session_at; cbn. by rewrite lookup_insert_ne. Qed.

Lemma session_at_None st sid :
  votingSessions st !! sid = None → session_at st sid = default_session.
Proof. unfold session_at. by intros ->. Qed.

(** A loop whose body either passes without touching anything or fails
    with [e] does the same as a whole. *)
Lemma for_each_checks (body : nat → unit → M unit) (l : list nat) e st :
  (∀ i, i ∈ l → body i tt st = Done tt st ∨ body i tt st = Reverted e st) →
  (for_each body l tt st = Done tt st ∧ ∀ i, i ∈ l → body i tt st = Done tt st) ∨
  (for_each body l tt st = Reverted e st ∧ ∃ i, i ∈ l ∧ body i tt st = Reverted e st).
Proof.
  induction l as [|i l IH]; intros Hbody; cbn.
  - left. split; [done|]. intros i Hi. by apply not_elem_of_nil in Hi.
  - unfold bind.
    assert (Hin : i ∈ i :: l) by apply list_elem_of_here.
    destruct (Hbody i Hin) as [Hi|Hi]; rewrite Hi.
    + destruct IH as [[Hl Hall]|[Hl (j & Hj & Hjf)]].
      * intros j Hj. apply Hbody. by apply list_elem_of_further.
      * left. split; [done|]. intros j Hj.
        apply elem_of_cons in Hj as [->|Hj]; auto.
      * right. split; [done|]. exists j. split; [by apply list_elem_of_further|done].
    + right. split; [done|]. exists i. split; [done|done].
Qed.

Section Duplicates.

Variable keccak256 : string → N.

Lemma inner_scan_spec (c : list string) i ci st :
  c !! i = Some ci →
  let inner := for_range (i + 1) (length c) (λ j _,
      let! ci := array_get c i in
      let! cj := array_get c j in
      require (negb (keccak256 ci =? keccak256 cj)%N) DuplicateCandidate) tt in
  (inner st = Done tt st ∧
     ∀ j cj, i < j → c !! j = Some cj → keccak256 ci ≠ keccak256 cj) ∨
  (inner st = Reverted DuplicateCandidate st ∧
     ∃ j cj, i < j ∧ c !! j = Some cj ∧ keccak256 ci = keccak256 cj).
Proof.
  intros Hi inner. subst inner. unfold for_range.
  set (body := λ (j : nat) (_ : unit), _).
  assert (Hbody : ∀ j, j ∈ seq (i + 1) (length c - (i + 1)) →
     ∃ cj, c !! j = Some cj ∧
       body j tt st = if (keccak256 ci =? keccak256 cj)%N
                      then Reverted DuplicateCandidate st else Done tt st).
  { intros j Hj. apply elem_of_seq in Hj.
    destruct (lookup_lt_is_Some_2 c j) as [cj Hcj]; [lia|].
    exists cj. split; [done|]. subst body. vm_unfold.
    rewrite Hi, Hcj. by destruct (_ =? _)%N. }
  destruct (for_each_checks body (seq (i + 1) (length c - (i + 1)))
              DuplicateCandidate st) as [[Hrun Hall]|[Hrun (j & Hj & Hjf)]].
  - intros j Hj. destruct (Hbody j Hj) as (cj & _ & ->).
    destruct (_ =? _)%N; auto.
  - left. split; [done|]. intros j cj Hij Hcj Heq.
    assert (Hj : j ∈ seq (i + 1) (length c - (i + 1))).
    { apply elem_of_seq. apply lookup_lt_Some in Hcj. lia. }
    specialize (Hall j Hj). destruct (Hbody j Hj) as (cj' & Hcj' & Hb).
    rewrite Hcj in Hcj'. injection Hcj' as <-.
    rewrite Hb in Hall. apply N.eqb_eq in Heq. by rewrite Heq in Hall.
  - right. split; [done|]. destruct (Hbody j Hj) as (cj & Hcj & Hb).
    exists j, cj. apply elem_of_seq in Hj. split; [lia|]. split; [done|].
    rewrite Hb in Hjf. destruct (_ =? _)%N eqn:E; [|done].
    by apply N.eqb_eq in E.
Qed.

Lemma duplicate_scan_spec (c : list string) st :
  (duplicate_scan keccak256 c st = Done tt st ∧ ¬ digest_clash keccak256 c) ∨
  (duplicate_scan keccak256 c st = Reverted DuplicateCandidate st ∧ digest_clash keccak256 c).
Proof.
  unfold duplicate_scan, for_range at 1.
  set (body := λ (i : nat) (_ : unit), _).
  destruct (for_each_checks body (seq 0 (length c - 0))
              DuplicateCandidate st) as [[Hrun Hall]|[Hrun (i & Hi & Hif)]].
  - intros i Hi. apply elem_of_seq in Hi.
    destruct (lookup_lt_is_Some_2 c i) as [ci Hci]; [lia|].
    subst body. cbn beta.
    destruct (inner_scan_spec c i ci st Hci) as [[H _]|[H _]]; auto.
  - left. split; [done|]. intros (i & j & ci & cj & Hij & Hci & Hcj & Heq).
    assert (Hi : i ∈ seq 0 (length c - 0)).
    { apply elem_of_seq. apply lookup_lt_Some in Hci. lia. }
    specialize (Hall i Hi). subst body. cbn beta in Hall.
    destruct (inner_scan_spec c i ci st Hci) as [[_ Hne]|[H _]].
    + by apply (Hne j cj).
    + rewrite H in Hall. done.
  - right. split; [done|]. apply elem_of_seq in Hi.
    destruct (lookup_lt_is_Some_2 c i) as [ci Hci]; [lia|].
    subst body. cbn beta in Hif.
    destruct (inner_scan_spec c i ci st Hci) as [[H _]|[_ (j & cj & ? & ? & ?)]].
    + rewrite H in Hif. done.
    + by exists i, j, ci, cj.
Qed.

(** Equal strings have equal digests, whatever the digest function. *)
Lemma equal_candidates_clash (c : list string) i j x :
  i < j → c !! i = Some x → c !! j = Some x → digest_clash keccak256 c.
Proof. intros. by exists i, j, x, x. Qed.

End Duplicates.

Lemma bind_eq {A B} (m : M A) (k : A → M B) st :
  bind m k st = match m st with
                | Done a st' => k a st'
                | Reverted e st' => Reverted e st'
                end.
Proof. reflexivity. Qed.

Lemma bind_require {B} b e (k : unit → M B) st :
  bind (require b e) k st = if b then k tt st else Reverted e st.
Proof. by destruct b. Qed.

Lemma bind_gets {A B} (f : State → A) (k : A → M B) st :
  bind (gets f) k st = k (f st) st.
Proof. reflexivity. Qed.

Lemma bind_sload {A B} sid (f : VotingSession → A) (k : A → M B) st :
  bind (sload sid f) k st = k (f (session_at st sid)) st.
Proof. reflexivity. Qed.

Lemma bind_sstore {B} sid upd (k : unit → M B) st :
  bind (sstore sid upd) k st =
  k tt (mkState (<[sid := upd (session_at st sid)]> (votingSessions st))
                (votingSessionCount st) (events st)).
Proof. reflexivity. Qed.

Lemma bind_set_count {B} n (k : unit → M B) st :
  bind (set_votingSessionCount n) k st =
  k tt (mkState (votingSessions st) n (events st)).
Proof. reflexivity. Qed.

Lemma bind_emit {B} ev (k : unit → M B) st :
  bind (emit ev) k st =
  k tt (mkState (votingSessions st) (votingSessionCount st) (events st ++ [ev])).
Proof. reflexivity. Qed.

Lemma emit_eq ev st :
  emit ev st =
  Done tt (mkState (votingSessions st) (votingSessionCount st) (events st ++ [ev])).
Proof. reflexivity. Qed.

Lemma bind_array_get {A B} (l : list A) i (k : A → M B) st :
  bind (array_get l i) k st =
  match l !! i with Some x => k x st | None => Reverted IndexOutOfBounds st end.
Proof. unfold bind, array_get. by destruct (l !! i). Qed.

Lemma bind_array_set {A B} (l : list A) i x (k : list A → M B) st :
  bind (array_set l i x) k st =
  if decide (i < length l) then k (<[i := x]> l) st
  else Reverted IndexOutOfBounds st.
Proof. unfold bind, array_set. by case_decide. Qed.

Lemma bind_checked_add {B} a b (k : N → M B) st :
  bind (checked_add a b) k st =
  if (a + b <=? MAX_UINT)%N then k (a + b)%N st
  else Reverted ArithmeticOverflow st.
Proof. unfold bind, checked_add. by destruct (_ <=? _)%N. Qed.

Lemma bind_ret {A B} (a : A) (k : A → M B) st : bind (ret a) k st = k a st.
Proof. reflexivity. Qed.

Lemma session_at_mk m c ev sid :
  session_at (mkState m c ev) sid = default default_session (m !! sid).
Proof. reflexivity. Qed.

(** Symbolic execution of straight-line code, one statement at a time. *)
Ltac vm_exec :=
  repeat (first
    [ rewrite bind_sstore | rewrite bind_sload | rewrite bind_gets
    | rewrite bind_set_count | rewrite bind_emit | rewrite emit_eq
    | rewrite bind_ret
    | progress cbn [votingSessions votingSessionCount events]
    | rewrite session_at_insert_eq | rewrite insert_insert_eq ]).

Ltac vm_exec_in H :=
  repeat (first
    [ rewrite bind_sstore in H | rewrite bind_sload in H
    | rewrite bind_gets in H
    | rewrite bind_set_count in H | rewrite bind_emit in H
    | rewrite emit_eq in H | rewrite bind_ret in H
    | progress cbn [votingSessions votingSessionCount events] in H
    | rewrite session_at_insert_eq in H | rewrite insert_insert_eq in H ]).

Ltac session_fields :=
  unfold set_title, set_candidates, set_isActive, set_startTimestamp,
    set_endTimestamp, set_resultsCalculated, set_finalTally, set_hasVoted in *;
  cbn [title candidates isActive startTimestamp endTimestamp
       resultsCalculated finalTally hasVoted] in *.

Section CreateCases.

Variable keccak256 : string → N.

Lemma create_cases t c d now st :
  let r := transact (createVotingSession keccak256 t c d now) st in
  ((length c ≤ 1)%nat ∧ r = (st, inl InsufficientCandidates)) ∨
  ((1 < length c)%nat ∧ d = 0%N ∧ r = (st, inl InvalidDuration)) ∨
  ((1 < length c)%nat ∧ (0 < d)%N ∧ digest_clash keccak256 c ∧
     r = (st, inl DuplicateCandidate)) ∨
  ((1 < length c)%nat ∧ (0 < d)%N ∧ ¬ digest_clash keccak256 c ∧
     (MAX_UINT < votingSessionCount st + 1 ∨ MAX_UINT < now + d)%N ∧
     r = (st, inl ArithmeticOverflow)) ∨
  ((1 < length c)%nat ∧ (0 < d)%N ∧ ¬ digest_clash keccak256 c ∧
     (votingSessionCount st + 1 ≤ MAX_UINT)%N ∧ (now + d ≤ MAX_UINT)%N ∧
     r = (create_post st t c d now, inr (votingSessionCount st))).
Proof.
  intros r. subst r. unfold transact, createVotingSession.
  rewrite bind_require. case_bool_decide as Hlen; [|left; split; [lia|done]].
  right. rewrite bind_require.
  destruct (0 <? d)%N eqn:Hd; [apply N.ltb_lt in Hd|apply N.ltb_ge in Hd].
  2: { left. split; [done|]. split; [lia|done]. }
  right. rewrite bind_eq.
  destruct (duplicate_scan_spec keccak256 c st) as [[Hs Hc]|[Hs Hc]];
    unfold duplicate_scan in Hs; rewrite Hs.
  2: { left. done. }
  right. rewrite bind_gets, bind_checked_add.
  destruct (votingSessionCount st + 1 <=? MAX_UINT)%N eqn:Hn;
    [apply N.leb_le in Hn|apply N.leb_gt in Hn].
  2: { left. repeat split; auto. }
  vm_exec. rewrite bind_checked_add.
  destruct (now + d <=? MAX_UINT)%N eqn:He;
    [apply N.leb_le in He|apply N.leb_gt in He].
  2: { left. repeat split; auto. }
  right. vm_exec. unfold create_post, created_session.
  rewrite session_at_mk. fold (session_at st (votingSessionCount st)).
  session_fields. repeat split; auto.
Qed.

End CreateCases.

Lemma vote_cases sid idx a now st :
  let s := session_at st sid in
  let r := transact (vote sid idx a now) st in
  (isActive s = false ∧ r = (st, inl SessionNotActive)) ∨
  (isActive s = true ∧ (endTimestamp s < now)%N ∧ r = (st, inl SessionEnded)) ∨
  (isActive s = true ∧ (now ≤ endTimestamp s)%N ∧ a ∈ hasVoted s ∧
     r = (st, inl AlreadyVoted)) ∨
  (isActive s = true ∧ (now ≤ endTimestamp s)%N ∧ (a ∉ hasVoted s) ∧
     (N.of_nat (length (candidates s)) ≤ idx)%N ∧
     r = (st, inl InvalidCandidateIndex)) ∨
  (isActive s = true ∧ (now ≤ endTimestamp s)%N ∧ (a ∉ hasVoted s) ∧
     (idx < N.of_nat (length (candidates s)))%N ∧
     finalTally s !! N.to_nat idx = None ∧
     r = (st, inl IndexOutOfBounds)) ∨
  (isActive s = true ∧ (now ≤ endTimestamp s)%N ∧ (a ∉ hasVoted s) ∧
     (idx < N.of_nat (length (candidates s)))%N ∧
     (∃ t, finalTally s !! N.to_nat idx = Some t ∧ (MAX_UINT < t + 1)%N) ∧
     r = (st, inl ArithmeticOverflow)) ∨
  (isActive s = true ∧ (now ≤ endTimestamp s)%N ∧ (a ∉ hasVoted s) ∧
     (idx < N.of_nat (length (candidates s)))%N ∧
     ∃ t, finalTally s !! N.to_nat idx = Some t ∧ (t + 1 ≤ MAX_UINT)%N ∧
          r = (vote_post st sid idx a t, inr tt)).
Proof.
  intros s r.
  assert (Hr : r = transact (vote sid idx a now) st) by done. clearbody r.
  unfold transact, vote in Hr.
  rewrite bind_sload, bind_require in Hr. fold s in Hr.
  destruct (isActive s) eqn:Hact; [|by left]. right.
  rewrite bind_sload, bind_require in Hr. fold s in Hr.
  destruct (now <=? endTimestamp s)%N eqn:Hend;
    [apply N.leb_le in Hend|apply N.leb_gt in Hend; by left]. right.
  rewrite bind_sload, bind_require in Hr. fold s in Hr.
  case_bool_decide as Hvoted; cbn [negb] in Hr; [by left|]. right.
  rewrite bind_sload, bind_require in Hr. fold s in Hr.
  destruct (idx <? N.of_nat (length (candidates s)))%N eqn:Hidx;
    [apply N.ltb_lt in Hidx|apply N.ltb_ge in Hidx; by left]. right.
  vm_exec_in Hr. fold s in Hr. rewrite bind_array_get in Hr.
  unfold set_hasVoted at 1 in Hr. cbn [finalTally] in Hr.
  destruct (finalTally s !! N.to_nat idx) as [t|] eqn:Ht; [|by left]. right.
  rewrite bind_checked_add in Hr.
  destruct (t + 1 <=? MAX_UINT)%N eqn:Hov;
    [apply N.leb_le in Hov|apply N.leb_gt in Hov].
  - right. do 4 (split; [done|]). exists t. do 2 (split; [done|]).
    vm_exec_in Hr. by rewrite Hr.
  - left. do 4 (split; [done|]). split; [|done]. by exists t.
Qed.

Lemma calculateResults_cases sid now st :
  let s := session_at st sid in
  let r := transact (calculateResults sid now) st in
  ((votingSessionCount st ≤ sid)%N ∧ r = (st, inl UnknownSession)) ∨
  ((sid < votingSessionCount st)%N ∧ isActive s = false ∧
     r = (st, inl AlreadyFinalized)) ∨
  ((sid < votingSessionCount st)%N ∧ isActive s = true ∧
     (now ≤ endTimestamp s)%N ∧ r = (st, inl SessionStillActive)) ∨
  ((sid < votingSessionCount st)%N ∧ isActive s = true ∧
     (endTimestamp s < now)%N ∧ resultsCalculated s = true ∧
     r = (st, inl ResultsAlreadyCalculated)) ∨
  ((sid < votingSessionCount st)%N ∧ isActive s = true ∧
     (endTimestamp s < now)%N ∧ resultsCalculated s = false ∧
     r = (finalize_post st sid, inr tt)).
Proof.
  intros s r.
  assert (Hr : r = transact (calculateResults sid now) st) by done. clearbody r.
  unfold transact, calculateResults in Hr.
  rewrite bind_gets, bind_require in Hr.
  destruct (sid <? votingSessionCount st)%N eqn:Hsid;
    [apply N.ltb_lt in Hsid|apply N.ltb_ge in Hsid; by left]. right.
  rewrite bind_sload, bind_require in Hr. fold s in Hr.
  destruct (isActive s) eqn:Hact; [|by left]. right.
  rewrite bind_sload, bind_require in Hr. fold s in Hr.
  destruct (endTimestamp s <? now)%N eqn:Hend;
    [apply N.ltb_lt in Hend|apply N.ltb_ge in Hend; by left]. right.
  rewrite bind_sload, bind_require in Hr. fold s in Hr.
  destruct (resultsCalculated s) eqn:Hrc; cbn [negb] in Hr; [by left|]. right.
  do 4 (split; [done|]). vm_exec_in Hr. fold s in Hr. rewrite Hr.
  unfold finalize_post. fold s. session_fields. done.
Qed.

(** ** Preservation of the invariants *)

Lemma default_session_ok : session_ok default_session.
Proof. split; cbn; try done. intros [|]; done. Qed.

Lemma state_ok_session_at st sid : state_ok st → session_ok (session_at st sid).
Proof.
  intros Hok. unfold session_at.
  destruct (votingSessions st !! sid) as [s|] eqn:E; cbn.
  - by destruct (Hok sid s E).
  - apply default_session_ok.
Qed.

Lemma state_ok_fresh st sid :
  state_ok st → (votingSessionCount st ≤ sid)%N →
  votingSessions st !! sid = None.
Proof.
  intros Hok Hle. destruct (votingSessions st !! sid) as [s|] eqn:E; [|done].
  destruct (Hok sid s E). lia.
Qed.

Lemma state_ok_known st sid :
  state_ok st →
  isActive (session_at st sid) = true ∨
    resultsCalculated (session_at st sid) = true →
  (sid < votingSessionCount st)%N.
Proof.
  intros Hok Hflag. unfold session_at in Hflag.
  destruct (votingSessions st !! sid) as [s|] eqn:E.
  - by destruct (Hok sid s E).
  - by destruct Hflag.
Qed.

Lemma state_ok_insert st sid s c ev :
  state_ok st → session_ok s →
  (sid < c)%N → (votingSessionCount st ≤ c)%N →
  state_ok (mkState (<[sid := s]> (votingSessions st)) c ev).
Proof.
  intros Hok Hs Hsid Hc sid' s'. cbn.
  rewrite lookup_insert. case_decide as E.
  - intros [= <-]. by subst.
  - intros Hl. destruct (Hok sid' s' Hl). split; [lia|done].
Qed.

Lemma sum_tally_replicate n : sum_tally (replicate n 0%N) = 0%N.
Proof. unfold sum_tally. induction n; cbn; [done|]. by rewrite IHn. Qed.

Lemma sum_tally_insert (l : list N) i t x :
  l !! i = Some t → (sum_tally (<[i := x]> l) + t = sum_tally l + x)%N.
Proof.
  unfold sum_tally.
  revert i. induction l as [|y l IH]; intros [|i]; cbn; try done.
  - intros [= ->]. lia.
  - intros Hl. rewrite <- !N.add_assoc. f_equal. by apply IH.
Qed.

Lemma init_ok : state_ok init.
Proof. intros sid s. cbn. by rewrite lookup_empty. Qed.

Lemma created_session_ok t c d now :
  1 < length c → session_ok (created_session default_session t c d now).
Proof.
  intros Hlen. unfold created_session, default_session. split; session_fields.
  - by rewrite length_replicate.
  - by rewrite sum_tally_replicate, size_empty.
  - apply Forall_replicate. unfold MAX_UINT. lia.
  - done.
  - lia.
Qed.

Lemma voted_session_ok s idx a t :
  session_ok s → a ∉ hasVoted s →
  finalTally s !! N.to_nat idx = Some t → (t + 1 ≤ MAX_UINT)%N →
  session_ok (set_finalTally (<[N.to_nat idx := (t + 1)%N]> (finalTally s))
                (set_hasVoted ({[a]} ∪ hasVoted s) s)).
Proof.
  intros [Hlen Hsum Hrange Hflags Hcreated] Ha Ht Hov. split; session_fields.
  - by rewrite length_insert.
  - pose proof (sum_tally_insert _ _ _ (t + 1)%N Ht) as Hins.
    rewrite size_union by set_solver. rewrite size_singleton. lia.
  - apply Forall_insert; [done|lia].
  - done.
  - done.
Qed.

Lemma finalized_session_ok s :
  session_ok s → isActive s = true →
  session_ok (set_isActive false (set_resultsCalculated true s)).
Proof.
  intros [Hlen Hsum Hrange Hflags Hcreated] Hact. split; session_fields; auto.
Qed.

Lemma transact_bind_ret {A B} (m : M A) (f : A → B) st :
  transact (bind m (λ a, ret (f a))) st = tag f (transact m st).
Proof. unfold transact, tag, bind, ret. by destruct (m st). Qed.

Section Reachable.

Variable keccak256 : string → N.

Lemma execute_create a now t c d st :
  execute keccak256 st (mkTx a now (CreateVotingSession t c d)) =
  tag Some (transact (createVotingSession keccak256 t c d now) st).
Proof. apply transact_bind_ret. Qed.

Lemma execute_vote a now sid idx st :
  execute keccak256 st (mkTx a now (Vote sid idx)) =
  tag (λ _, None) (transact (vote sid idx a now) st).
Proof. apply (transact_bind_ret _ (λ _ : unit, None)). Qed.

Lemma execute_calculate a now sid st :
  execute keccak256 st (mkTx a now (CalculateResults sid)) =
  tag (λ _, None) (transact (calculateResults sid now) st).
Proof. apply (transact_bind_ret _ (λ _ : unit, None)). Qed.

Lemma create_post_ok st t c d now :
  state_ok st → 1 < length c → state_ok (create_post st t c d now).
Proof.
  intros Hok Hlen. unfold create_post.
  rewrite (session_at_None st (votingSessionCount st))
    by (apply state_ok_fresh; [done|lia]).
  apply state_ok_insert; [done| |lia|lia].
  by apply created_session_ok.
Qed.

Lemma vote_post_ok st sid idx a t :
  state_ok st → isActive (session_at st sid) = true →
  a ∉ hasVoted (session_at st sid) →
  finalTally (session_at st sid) !! N.to_nat idx = Some t →
  (t + 1 ≤ MAX_UINT)%N →
  state_ok (vote_post st sid idx a t).
Proof.
  intros Hok Hact Ha Ht Hov. unfold vote_post.
  apply state_ok_insert; [done| | |lia].
  - apply voted_session_ok; auto. by apply state_ok_session_at.
  - apply state_ok_known; auto.
Qed.

Lemma finalize_post_ok st sid :
  state_ok st → isActive (session_at st sid) = true →
  state_ok (finalize_post st sid).
Proof.
  intros Hok Hact. unfold finalize_post.
  apply state_ok_insert; [done| | |lia].
  - apply finalized_session_ok; auto. by apply state_ok_session_at.
  - apply state_ok_known; auto.
Qed.

Lemma execute_ok st tx : state_ok st → state_ok (execute keccak256 st tx).1.
Proof.
  intros Hok. destruct tx as [a now [t c d|sid idx|sid]].
  - rewrite execute_create.
    destruct (create_cases keccak256 t c d now st)
      as [(_ & ->)|[(_ & _ & ->)|[(_ & _ & _ & ->)|
          [(_ & _ & _ & _ & ->)|(Hlen & _ & _ & _ & _ & ->)]]]]; cbn; auto.
    by apply create_post_ok.
  - rewrite execute_vote.
    destruct (vote_cases sid idx a now st)
      as [(_ & ->)|[(_ & _ & ->)|[(_ & _ & _ & ->)|[(_ & _ & _ & _ & ->)|
          [(_ & _ & _ & _ & _ & ->)|[(_ & _ & _ & _ & _ & ->)|
          (Hact & _ & Ha & _ & t & Ht & Hov & ->)]]]]]]; cbn; auto.
    by apply vote_post_ok.
  - rewrite execute_calculate.
    destruct (calculateResults_cases sid now st)
      as [(_ & ->)|[(_ & _ & ->)|[(_ & _ & _ & ->)|[(_ & _ & _ & _ & ->)|
          (_ & Hact & _ & _ & ->)]]]]; cbn; auto.
    by apply finalize_post_ok.
Qed.

Lemma run_snoc st txs tx :
  run keccak256 st (txs ++ [tx]) =
  (execute keccak256 (run keccak256 st txs) tx).1.
Proof. unfold run. by rewrite foldl_snoc. Qed.

Lemma run_ok st txs : state_ok st → state_ok (run keccak256 st txs).
Proof.
  revert st. induction txs as [|tx txs IH]; intros st Hok; [done|].
  cbn. apply IH. by apply execute_ok.
Qed.

Lemma reachable_ok st : reachable keccak256 st → state_ok st.
Proof. intros [txs ->]. apply run_ok, init_ok. Qed.

Lemma reachable_init : reachable keccak256 init.
Proof. by exists []. Qed.

Lemma reachable_step st tx :
  reachable keccak256 st → reachable keccak256 (execute keccak256 st tx).1.
Proof. intros [txs ->]. exists (txs ++ [tx]). by rewrite run_snoc. Qed.

End Reachable.

(** ** Winners *)

Lemma for_each_app {A} (body : nat → A → M A) l1 l2 acc st :
  for_each body (l1 ++ l2) acc st =
  bind (for_each body l1 acc) (for_each body l2) st.
Proof.
  revert acc st. induction l1 as [|i l1 IH]; intros acc st; [done|].
  cbn. rewrite !bind_eq. destruct (body i acc st); [apply IH|done].
Qed.

Lemma max_tally_snoc l t : max_tally (l ++ [t]) = N.max (max_tally l) t.
Proof.
  unfold max_tally. induction l as [|x l IH]; cbn; [lia|]. rewrite IH. lia.
Qed.

Lemma max_tally_bound (l : list N) i x : l !! i = Some x → (x ≤ max_tally l)%N.
Proof.
  unfold max_tally. revert i. induction l as [|y l IH]; intros [|i]; cbn; try done.
  - intros [= ->]. lia.
  - intros Hl. specialize (IH i Hl). lia.
Qed.

Lemma filter_seq_mono (P : nat → Prop) `{∀ i, Decision (P i)} k n :
  k ≤ n → length (filter P (seq 0 k)) ≤ length (filter P (seq 0 n)).
Proof.
  intros Hkn. replace n with (k + (n - k)) by lia.
  rewrite seq_app, filter_app, length_app. lia.
Qed.

Lemma filter_none {A} (P : A → Prop) `{∀ x, Decision (P x)} (l : list A) :
  (∀ x, x ∈ l → ¬ P x) → filter P l = [].
Proof.
  induction l as [|x l IH]; intros Hall; [done|].
  rewrite filter_cons_False by (apply Hall; apply list_elem_of_here).
  apply IH. intros y Hy. apply Hall. by apply list_elem_of_further.
Qed.

Lemma filter_all {A} (P : A → Prop) `{∀ x, Decision (P x)} (l : list A) :
  (∀ x, x ∈ l → P x) → filter P l = l.
Proof.
  induction l as [|x l IH]; intros Hall; [done|].
  rewrite filter_cons_True by (apply Hall; apply list_elem_of_here).
  f_equal. apply IH. intros y Hy. apply Hall. by apply list_elem_of_further.
Qed.

(** Nothing before position [k] equals a value above the maximum of the
    first [k] entries. *)
Lemma filter_above_max (tally : list N) k t :
  (max_tally (take k tally) < t)%N →
  filter (λ i, tally !! i = Some t) (seq 0 k) = [].
Proof.
  intros Hlt. apply filter_none.
  intros i Hi Heq. apply elem_of_seq in Hi.
  assert (take k tally !! i = Some t) as Hb by (rewrite lookup_take_lt; [done|lia]).
  apply max_tally_bound in Hb. lia.
Qed.

(** The first loop: after [k] rounds the accumulator holds the maximum
    of the first [k] entries and the number of them equal to it. *)
Lemma scan_loop (tally : list N) k st :
  k ≤ length tally →
  for_each (scan_highest tally) (seq 0 k) (0%N, 0) st =
  Done (max_tally (take k tally),
        length (filter (λ i, tally !! i = Some (max_tally (take k tally)))
                       (seq 0 k))) st.
Proof.
  induction k as [|k IH]; intros Hk; [done|].
  rewrite seq_S, for_each_app, bind_eq, IH by lia. cbn [for_each Nat.add].
  rewrite bind_eq. unfold scan_highest at 1.
  destruct (lookup_lt_is_Some_2 tally k) as [t Ht]; [lia|].
  rewrite bind_array_get, Ht.
  rewrite (take_S_r _ _ _ Ht), max_tally_snoc, filter_app, filter_singleton
    by exact [].
  set (m := max_tally (take k tally)).
  destruct (m <? t)%N eqn:Hmt; [apply N.ltb_lt in Hmt|apply N.ltb_ge in Hmt].
  - replace (N.max m t) with t by lia.
    rewrite filter_above_max by done.
    rewrite decide_True by done. done.
  - replace (N.max m t) with m by lia.
    destruct (t =? m)%N eqn:Htm; [apply N.eqb_eq in Htm|apply N.eqb_neq in Htm].
    + subst t. rewrite decide_True by done. rewrite length_app. done.
    + rewrite decide_False by congruence. by rewrite app_nil_r.
Qed.

(** The second loop: after [k] rounds the first [index] cells of the
    result hold the names found so far, the others are still empty. *)
Lemma collect_loop (tally : list N) (names : list string) m k st :
  length tally = length names →
  k ≤ length tally →
  let P := λ i, tally !! i = Some m in
  let W := length (filter P (seq 0 (length tally))) in
  for_each (collect_winners tally names m) (seq 0 k) (replicate W "", 0) st =
  Done (((λ i, names !!! i) <$> filter P (seq 0 k)) ++
          replicate (W - length (filter P (seq 0 k))) "",
        length (filter P (seq 0 k))) st.
Proof.
  intros Hlen Hk P W. induction k as [|k IH].
  { cbn. by rewrite Nat.sub_0_r. }
  rewrite seq_S, for_each_app, bind_eq, IH by lia. cbn [for_each Nat.add].
  rewrite bind_eq. unfold collect_winners at 1.
  destruct (lookup_lt_is_Some_2 tally k) as [t Ht]; [lia|].
  destruct (lookup_lt_is_Some_2 names k) as [name Hname]; [lia|].
  rewrite bind_array_get, Ht.
  rewrite filter_app, filter_singleton by exact [].
  set (found := filter P (seq 0 k)).
  destruct (t =? m)%N eqn:Htm; [apply N.eqb_eq in Htm|apply N.eqb_neq in Htm].
  - assert (HP : P k) by (unfold P; congruence).
    rewrite decide_True by done.
    assert (Hroom : length found + 1 ≤ W).
    { pose proof (filter_seq_mono P (S k) (length tally) Hk) as Hm.
      rewrite seq_S, filter_app, filter_singleton, decide_True, length_app
        in Hm by (done || exact []).
      exact Hm. }
    rewrite bind_array_get, Hname, bind_array_set.
    rewrite decide_True
      by (rewrite length_app, length_fmap, length_replicate; lia).
    unfold ret.
    rewrite insert_app_r_alt by (rewrite length_fmap; lia).
    rewrite length_fmap, Nat.sub_diag.
    destruct (W - length found) as [|room] eqn:Hroom'; [lia|].
    rewrite length_app, fmap_app. cbn [length fmap list_fmap].
    rewrite (list_lookup_total_correct _ _ _ Hname).
    replace (W - (length found + 1)) with room by lia.
    cbn. by rewrite <- app_assoc.
  - assert (HP : ¬ P k) by (unfold P; congruence).
    rewrite decide_False by done. by rewrite !app_nil_r.
Qed.

Lemma take_length {A} (l : list A) : take (length l) l = l.
Proof. by apply take_ge. Qed.

(** [getWinners] on a session whose two arrays have the same length. *)
Lemma getWinners_run st sid :
  let s := session_at st sid in
  length (finalTally s) = length (candidates s) →
  getWinners sid st =
  if resultsCalculated s then Done (winners_of s) st
  else Reverted ResultsNotReady st.
Proof.
  intros s Hlen. unfold getWinners.
  rewrite bind_sload, bind_require. fold s.
  destruct (resultsCalculated s); [|done].
  rewrite !bind_sload. fold s.
  rewrite bind_eq. unfold for_range. rewrite Nat.sub_0_r.
  rewrite scan_loop by done. rewrite take_length.
  rewrite bind_eq, collect_loop by done.
  unfold winners_of, top_indices. rewrite Nat.sub_diag. cbn [replicate].
  by rewrite app_nil_r.
Qed.

Lemma winners_of_length s :
  length (winners_of s) = length (top_indices (finalTally s)).
Proof. unfold winners_of. by rewrite length_fmap. Qed.

(** A non-empty tally attains its maximum somewhere. *)
Lemma max_tally_attained (l : list N) :
  l ≠ [] → ∃ i, l !! i = Some (max_tally l).
Proof.
  unfold max_tally. induction l as [|x l IH]; [done|]. intros _.
  destruct l as [|y l].
  - exists 0. cbn. f_equal. lia.
  - destruct IH as [i Hi]; [done|].
    destruct (N.max_spec x (foldr N.max 0%N (y :: l))) as [[_ E]|[_ E]].
    + exists (S i). cbn [foldr] in *. rewrite E. exact Hi.
    + exists 0. cbn [foldr] in *. rewrite E. done.
Qed.

Lemma top_indices_nonempty (l : list N) : l ≠ [] → top_indices l ≠ [].
Proof.
  intros Hne. destruct (max_tally_attained l Hne) as [i Hi].
  unfold top_indices. intros Hnil.
  eapply (filter_nil_not_elem_of _ _ i Hnil Hi).
  apply elem_of_seq. apply lookup_lt_Some in Hi. lia.
Qed.

Lemma fmap_lookup_total_seq (l : list string) :
  (λ i, l !!! i) <$> seq 0 (length l) = l.
Proof.
  induction l as [|x l IH] using rev_ind; [done|].
  rewrite length_app. cbn [length]. rewrite Nat.add_1_r, seq_S, fmap_app.
  cbn [Nat.add fmap list_fmap]. f_equal.
  - rewrite <- IH at 2. apply list_fmap_ext. intros i j Hj.
    apply lookup_seq in Hj as [-> Hj]. cbn.
    by rewrite lookup_total_app_l.
  - f_equal. rewrite lookup_total_app_r by done. by rewrite Nat.sub_diag.
Qed.

(** ** Facts about single calls and traces *)

Section Calls.

Variable keccak256 : string → N.

(** A call that fails leaves the state as it was. *)
Lemma execute_failure st tx st' e :
  execute keccak256 st tx = (st', inl e) → st' = st.
Proof.
  unfold execute, transact. destruct (dispatch keccak256 tx st); congruence.
Qed.

(** The voters of a session are never forgotten. *)
Lemma execute_hasVoted st tx sid a :
  a ∈ hasVoted (session_at st sid) →
  a ∈ hasVoted (session_at (execute keccak256 st tx).1 sid).
Proof.
  intros Ha. destruct tx as [b now [t c d|sid' idx|sid']].
  - rewrite execute_create.
    destruct (create_cases keccak256 t c d now st)
      as [(_ & ->)|[(_ & _ & ->)|[(_ & _ & _ & ->)|
          [(_ & _ & _ & _ & ->)|(_ & _ & _ & _ & _ & ->)]]]]; cbn; auto.
    unfold create_post.
    destruct (decide (votingSessionCount st = sid)) as [->|Hne].
    + by rewrite session_at_insert_eq.
    + rewrite session_at_insert_ne by done. exact Ha.
  - rewrite execute_vote.
    destruct (vote_cases sid' idx b now st)
      as [(_ & ->)|[(_ & _ & ->)|[(_ & _ & _ & ->)|[(_ & _ & _ & _ & ->)|
          [(_ & _ & _ & _ & _ & ->)|[(_ & _ & _ & _ & _ & ->)|
          (_ & _ & _ & _ & t & _ & _ & ->)]]]]]]; cbn; auto.
    unfold vote_post.
    destruct (decide (sid' = sid)) as [->|Hne].
    + rewrite session_at_insert_eq. session_fields. set_solver.
    + rewrite session_at_insert_ne by done. exact Ha.
  - rewrite execute_calculate.
    destruct (calculateResults_cases sid' now st)
      as [(_ & ->)|[(_ & _ & ->)|[(_ & _ & _ & ->)|[(_ & _ & _ & _ & ->)|
          (_ & _ & _ & _ & ->)]]]]; cbn; auto.
    unfold finalize_post.
    destruct (decide (sid' = sid)) as [->|Hne].
    + by rewrite session_at_insert_eq.
    + rewrite session_at_insert_ne by done. exact Ha.
Qed.

Lemma run_hasVoted st txs sid a :
  a ∈ hasVoted (session_at st sid) →
  a ∈ hasVoted (session_at (run keccak256 st txs) sid).
Proof.
  revert st. induction txs as [|tx txs IH]; intros st Ha; [done|].
  cbn. apply IH. by apply execute_hasVoted.
Qed.

(** An accepted vote records its sender. *)
Lemma vote_accepted_recorded st sid idx a now st' r :
  execute keccak256 st (mkTx a now (Vote sid idx)) = (st', inr r) →
  a ∈ hasVoted (session_at st' sid).
Proof.
  rewrite execute_vote.
  destruct (vote_cases sid idx a now st)
    as [(_ & ->)|[(_ & _ & ->)|[(_ & _ & _ & ->)|[(_ & _ & _ & _ & ->)|
        [(_ & _ & _ & _ & _ & ->)|[(_ & _ & _ & _ & _ & ->)|
        (_ & _ & _ & _ & t & _ & _ & ->)]]]]]]; cbn; try done.
  intros [= <- _]. unfold vote_post.
  rewrite session_at_insert_eq. session_fields. set_solver.
Qed.

(** How one call moves the session counter. *)
Lemma execute_count st tx :
  match execute keccak256 st tx with
  | (st', inr (Some sessionId)) =>
      sessionId = votingSessionCount st ∧
      votingSessionCount st' = (votingSessionCount st + 1)%N
  | (st', _) => votingSessionCount st' = votingSessionCount st
  end.
Proof.
  destruct tx as [b now [t c d|sid idx|sid]].
  - rewrite execute_create.
    destruct (create_cases keccak256 t c d now st)
      as [(_ & ->)|[(_ & _ & ->)|[(_ & _ & _ & ->)|
          [(_ & _ & _ & _ & ->)|(_ & _ & _ & _ & _ & ->)]]]]; cbn; auto.
  - rewrite execute_vote.
    destruct (vote_cases sid idx b now st)
      as [(_ & ->)|[(_ & _ & ->)|[(_ & _ & _ & ->)|[(_ & _ & _ & _ & ->)|
          [(_ & _ & _ & _ & _ & ->)|[(_ & _ & _ & _ & _ & ->)|
          (_ & _ & _ & _ & t & _ & _ & ->)]]]]]]; cbn; auto.
  - rewrite execute_calculate.
    destruct (calculateResults_cases sid now st)
      as [(_ & ->)|[(_ & _ & ->)|[(_ & _ & _ & ->)|[(_ & _ & _ & _ & ->)|
          (_ & _ & _ & _ & ->)]]]]; cbn; auto.
Qed.

(** Along a trace the ids handed out are the consecutive numbers from
    the counter's starting value, and the counter advances by their
    number. *)
Lemma created_ids_from st txs :
  created_ids keccak256 st txs =
    (λ k, (votingSessionCount st + N.of_nat k)%N) <$>
      seq 0 (length (created_ids keccak256 st txs)) ∧
  votingSessionCount (run keccak256 st txs) =
    (votingSessionCount st + N.of_nat (length (created_ids keccak256 st txs)))%N.
Proof.
  revert st. induction txs as [|tx txs IH]; intros st.
  { cbn. split; [done|lia]. }
  cbn [created_ids run foldl].
  pose proof (execute_count st tx) as Hc.
  destruct (execute keccak256 st tx) as [st' [e|[sessionId|]]] eqn:E;
    cbn [fst]; destruct (IH st') as [IH1 IH2]; fold (run keccak256 st' txs).
  - rewrite <- Hc. done.
  - destruct Hc as [-> Hc]. cbn [length]. split.
    + cbn [seq fmap list_fmap]. f_equal; [f_equal; lia|].
      rewrite IH1 at 1. rewrite <- fmap_S_seq, <- list_fmap_compose.
      apply list_fmap_ext. intros i k _. cbn. lia.
    + rewrite IH2. lia.
  - rewrite <- Hc. done.
Qed.

End Calls.

(** ** The properties of the specification *)

Lemma top_indices_elem (l : list N) i :
  i ∈ top_indices l ↔ l !! i = Some (max_tally l).
Proof.
  unfold top_indices. rewrite list_elem_of_filter, elem_of_seq. split.
  - by intros [? _].
  - intros Hi. split; [done|]. apply lookup_lt_Some in Hi. lia.
Qed.

Lemma filter_seq_sorted (P : nat → Prop) `{∀ i, Decision (P i)} lo n :
  StronglySorted lt (filter P (seq lo n)).
Proof.
  revert lo. induction n as [|n IH]; intros lo; cbn [seq]; [constructor|].
  rewrite filter_cons. case_decide; [|apply IH].
  constructor; [apply IH|]. apply Forall_forall. intros j Hj.
  apply list_elem_of_filter in Hj as [_ Hj]. apply elem_of_seq in Hj. lia.
Qed.

Lemma top_indices_unique (l : list N) i :
  l !! i = Some (max_tally l) →
  (∀ j, l !! j = Some (max_tally l) → j = i) →
  top_indices l = [i].
Proof.
  intros Hi Huniq. unfold top_indices.
  pose proof (lookup_lt_Some _ _ _ Hi) as Hlt.
  replace (length l) with (i + S (length l - S i)) by lia.
  rewrite seq_app. cbn [seq Nat.add]. rewrite filter_app, filter_cons_True by done.
  rewrite !filter_none; [done| |].
  - intros j Hj Hp. apply elem_of_seq in Hj. apply Huniq in Hp. lia.
  - intros j Hj Hp. apply elem_of_seq in Hj. apply Huniq in Hp. lia.
Qed.

Lemma max_tally_zero (l : list N) : Forall (λ t, t = 0%N) l → max_tally l = 0%N.
Proof.
  unfold max_tally. induction 1 as [|x l -> _ IH]; cbn; [done|].
  rewrite IH. done.
Qed.

Lemma top_indices_all_zero (l : list N) :
  Forall (λ t, t = 0%N) l → top_indices l = seq 0 (length l).
Proof.
  intros Hz. unfold top_indices. apply filter_all. intros i Hi.
  apply elem_of_seq in Hi. rewrite (max_tally_zero l Hz).
  destruct (lookup_lt_is_Some_2 l i) as [x Hx]; [lia|].
  rewrite Hx. f_equal. rewrite Forall_forall in Hz.
  apply Hz. by apply list_elem_of_lookup_2 in Hx.
Qed.

Section Claims.

Variable keccak256 : string → N.

(** C1: on every reachable state, [getWinners] of a session whose
    results are calculated returns the names of exactly the candidates
    whose count equals the maximum of the tally, in increasing index
    order; with every count zero these are all the candidates; with the
    maximum attained once it is that one candidate. *)
Theorem getWinners_returns_top_candidates (st : State) (sid : uint) :
  reachable keccak256 st →
  resultsCalculated (session_at st sid) = true →
  let s := session_at st sid in
  transact (getWinners sid) st = (st, inr (winners_of s)) ∧
  winners_of s = (λ i, candidates s !!! i) <$> top_indices (finalTally s) ∧
  (∀ i, i ∈ top_indices (finalTally s) ↔
        finalTally s !! i = Some (max_tally (finalTally s))) ∧
  StronglySorted lt (top_indices (finalTally s)) ∧
  (Forall (λ t, t = 0%N) (finalTally s) → winners_of s = candidates s) ∧
  (∀ i name,
     finalTally s !! i = Some (max_tally (finalTally s)) →
     (∀ j, finalTally s !! j = Some (max_tally (finalTally s)) → j = i) →
     candidates s !! i = Some name →
     winners_of s = [name]).
Proof.
  intros Hreach Hrc s. fold s in Hrc.
  pose proof (state_ok_session_at st sid (reachable_ok _ _ Hreach)) as Hok.
  fold s in Hok. destruct Hok as [Hlen _ _ _ _].
  repeat split.
  - unfold transact. rewrite getWinners_run by done. fold s. by rewrite Hrc.
  - by apply top_indices_elem.
  - by apply top_indices_elem.
  - apply filter_seq_sorted.
  - intros Hz. unfold winners_of. rewrite top_indices_all_zero by done.
    rewrite Hlen. apply fmap_lookup_total_seq.
  - intros i name Hi Huniq Hname. unfold winners_of.
    rewrite (top_indices_unique _ i Hi Huniq). cbn.
    by rewrite (list_lookup_total_correct _ _ _ Hname).
Qed.

(** C2, as the code has it: once a vote of an identity on a session has
    been accepted, every later vote of that identity on that session,
    whatever happened in between, fails and leaves the whole state
    unchanged; the error is the first failing check, [AlreadyVoted]
    exactly when the session is still active and its end time has not
    passed. *)
Theorem repeated_vote_is_rejected (st0 st1 : State) (sid idx idx' : uint)
    (a : address) (now now' : uint) (r : option uint) (txs : list Tx) :
  execute keccak256 st0 (mkTx a now (Vote sid idx)) = (st1, inr r) →
  let st := run keccak256 st1 txs in
  let s := session_at st sid in
  execute keccak256 st (mkTx a now' (Vote sid idx')) =
    (st, inl (if negb (isActive s) then SessionNotActive
              else if (endTimestamp s <? now')%N then SessionEnded
              else AlreadyVoted)).
Proof.
  intros Hfirst st s.
  assert (Ha : a ∈ hasVoted s).
  { apply run_hasVoted. by eapply vote_accepted_recorded. }
  subst s. rewrite execute_vote.
  destruct (vote_cases sid idx' a now' st)
    as [(Hact & ->)|[(Hact & Hend & ->)|[(Hact & Hend & _ & ->)|
        [(_ & _ & Hn & _)|[(_ & _ & Hn & _)|[(_ & _ & Hn & _)|
        (_ & _ & Hn & _)]]]]]]; try done; cbn [tag];
    rewrite Hact; cbn [negb].
  - done.
  - apply N.ltb_lt in Hend. by rewrite Hend.
  - apply N.ltb_ge in Hend. by rewrite Hend.
Qed.

(** C3: on every reachable state, the entries of the tally of every
    session add up to the number of identities recorded as voters of
    that session, and every entry is a non-negative 256-bit value. *)
Theorem tally_counts_voters (st : State) (sid : uint) :
  reachable keccak256 st →
  let s := session_at st sid in
  sum_tally (finalTally s) = N.of_nat (size (hasVoted s)) ∧
  Forall (λ t, (0 ≤ t ≤ MAX_UINT)%N) (finalTally s).
Proof.
  intros Hreach s.
  destruct (state_ok_session_at st sid (reachable_ok _ _ Hreach)); auto.
Qed.

(** C4: a [createVotingSession] call with fewer than two candidates, a
    zero duration or two equal candidate strings fails with the error of
    the first of these checks that fails, in this order, and leaves the
    state, the session count included, as it was. *)
Theorem create_rejects_bad_input (st : State) (a : address) (now : uint)
    (t : string) (c : list string) (d : uint) :
  length c < 2 ∨ d = 0%N ∨
    (∃ i j x, i < j ∧ c !! i = Some x ∧ c !! j = Some x) →
  let r := execute keccak256 st (mkTx a now (CreateVotingSession t c d)) in
  r = (st, inl (if decide (length c < 2) then InsufficientCandidates
                else if decide (d = 0%N) then InvalidDuration
                else DuplicateCandidate)) ∧
  votingSessionCount r.1 = votingSessionCount st.
Proof.
  intros Hbad r.
  assert (Hr : r = (st, inl (if decide (length c < 2) then InsufficientCandidates
                else if decide (d = 0%N) then InvalidDuration
                else DuplicateCandidate))); [|by rewrite Hr].
  subst r. rewrite execute_create.
  destruct (create_cases keccak256 t c d now st)
    as [(Hlen & ->)|[(Hlen & Hd & ->)|[(Hlen & Hd & Hc & ->)|
        [(Hlen & Hd & Hc & _)|(Hlen & Hd & Hc & _)]]]]; cbn [tag].
  - rewrite decide_True by lia. done.
  - rewrite decide_False by lia. rewrite decide_True by done. done.
  - rewrite decide_False by lia. rewrite decide_False by lia. done.
  - exfalso. destruct Hbad as [?|[?|(i & j & x & Hij & Hi & Hj)]]; [lia|lia|].
    apply Hc. by apply (equal_candidates_clash keccak256 c i j x).
  - exfalso. destruct Hbad as [?|[?|(i & j & x & Hij & Hi & Hj)]]; [lia|lia|].
    apply Hc. by apply (equal_candidates_clash keccak256 c i j x).
Qed.

(** C5: on every reachable state, a call of [createVotingSession],
    [vote] or [calculateResults] that fails leaves the state exactly as
    it was, and one that succeeds leaves the state with all the effects
    the specification lists for it. *)
Theorem calls_are_all_or_nothing (st : State) (tx : Tx) :
  reachable keccak256 st →
  match execute keccak256 st tx with
  | (st', inl _) => st' = st
  | (st', inr r) => committed st tx r st'
  end.
Proof.
  intros Hreach. pose proof (reachable_ok _ _ Hreach) as Hok.
  destruct tx as [a now [t c d|sid idx|sid]]; unfold committed; cbn [tx_call].
  - rewrite execute_create.
    destruct (create_cases keccak256 t c d now st)
      as [(_ & ->)|[(_ & _ & ->)|[(_ & _ & _ & ->)|
          [(_ & _ & _ & _ & ->)|(_ & _ & _ & _ & _ & ->)]]]]; cbn; auto.
    split; [done|]. unfold create_post, created_session.
    rewrite (session_at_None st (votingSessionCount st))
      by (apply state_ok_fresh; [done|lia]).
    done.
  - rewrite execute_vote.
    destruct (vote_cases sid idx a now st)
      as [(_ & ->)|[(_ & _ & ->)|[(_ & _ & _ & ->)|[(_ & _ & _ & _ & ->)|
          [(_ & _ & _ & _ & _ & ->)|[(_ & _ & _ & _ & _ & ->)|
          (_ & _ & _ & _ & t & Ht & _ & ->)]]]]]]; cbn; auto.
    split; [done|]. exists t. split; [done|]. done.
  - rewrite execute_calculate.
    destruct (calculateResults_cases sid now st)
      as [(_ & ->)|[(_ & _ & ->)|[(_ & _ & _ & ->)|[(_ & _ & _ & _ & ->)|
          (_ & _ & _ & _ & ->)]]]]; cbn; auto.
Qed.

(** C6: a vote on a session that is still marked active, cast at a time
    strictly after the session's end time, fails with [SessionEnded]
    (and changes nothing), whether or not the results were calculated. *)
Theorem vote_after_end_time_fails (st : State) (sid idx : uint)
    (a : address) (now : uint) :
  isActive (session_at st sid) = true →
  (endTimestamp (session_at st sid) < now)%N →
  execute keccak256 st (mkTx a now (Vote sid idx)) = (st, inl SessionEnded).
Proof.
  intros Hact Hend. rewrite execute_vote.
  destruct (vote_cases sid idx a now st)
    as [(Hact' & ->)|[(_ & _ & ->)|[(_ & Hend' & _)|
        [(_ & Hend' & _)|[(_ & Hend' & _)|[(_ & Hend' & _)|
        (_ & Hend' & _)]]]]]]; try done; try lia.
  congruence.
Qed.

(** C7: on every reachable state, a vote on a session id that was never
    created (an id not below the session count) fails with
    [SessionNotActive], the very error of a vote on any session that is
    not active, and changes nothing. *)
Theorem vote_on_unknown_session_fails (st : State) (sid idx : uint)
    (a : address) (now : uint) :
  reachable keccak256 st →
  (votingSessionCount st ≤ sid)%N ∨ isActive (session_at st sid) = false →
  execute keccak256 st (mkTx a now (Vote sid idx)) = (st, inl SessionNotActive).
Proof.
  intros Hreach Hsid. pose proof (reachable_ok _ _ Hreach) as Hok.
  assert (Hact : isActive (session_at st sid) = false).
  { destruct Hsid as [Hsid|Hsid]; [|done].
    by rewrite (session_at_None st sid) by (by apply state_ok_fresh). }
  rewrite execute_vote.
  destruct (vote_cases sid idx a now st)
    as [(_ & ->)|[(Hact' & _)|[(Hact' & _)|[(Hact' & _)|[(Hact' & _)|
        [(Hact' & _)|(Hact' & _)]]]]]]; [done|congruence..].
Qed.

(** C8: along every trace from the deployed contract, the session ids
    handed out are 0, 1, 2, ... in this order, the session count is the
    number of sessions created so far, and, from any state, a successful
    [createVotingSession] returns the count it found and adds one to it,
    while no other call and no failed call changes the count. *)
Theorem session_ids_are_dense (txs : list Tx) :
  let ids := created_ids keccak256 init txs in
  ids = N.of_nat <$> seq 0 (length ids) ∧
  votingSessionCount (run keccak256 init txs) = N.of_nat (length ids) ∧
  NoDup ids ∧
  ∀ st tx,
    match execute keccak256 st tx with
    | (st', inr (Some sessionId)) =>
        sessionId = votingSessionCount st ∧
        votingSessionCount st' = (votingSessionCount st + 1)%N
    | (st', _) => votingSessionCount st' = votingSessionCount st
    end.
Proof.
  intros ids. destruct (created_ids_from keccak256 init txs) as [Hids Hcount].
  fold ids in Hids, Hcount. cbn [init votingSessionCount] in Hids, Hcount.
  assert (Hseq : ids = N.of_nat <$> seq 0 (length ids)).
  { rewrite Hids at 1. apply list_fmap_ext. intros i k _. lia. }
  repeat split.
  - exact Hseq.
  - rewrite Hcount. lia.
  - rewrite Hseq. apply NoDup_fmap_2; [apply _|apply NoDup_seq].
  - apply execute_count.
Qed.

(** C9: on every reachable state, a session whose results are
    calculated is not active; hence [calculateResults] never fails with
    [ResultsAlreadyCalculated], and on a session whose results are
    calculated it fails with [AlreadyFinalized]. *)
Theorem results_already_calculated_is_dead (st : State) (sid : uint)
    (a : address) (now : uint) :
  reachable keccak256 st →
  (resultsCalculated (session_at st sid) = true →
   isActive (session_at st sid) = false) ∧
  (execute keccak256 st (mkTx a now (CalculateResults sid))).2 ≠
    inl ResultsAlreadyCalculated ∧
  (resultsCalculated (session_at st sid) = true →
   execute keccak256 st (mkTx a now (CalculateResults sid)) =
     (st, inl AlreadyFinalized)).
Proof.
  intros Hreach. pose proof (reachable_ok _ _ Hreach) as Hok.
  pose proof (state_ok_session_at st sid Hok) as [_ _ _ Hflags _].
  split; [done|]. rewrite execute_calculate.
  destruct (calculateResults_cases sid now st)
    as [(Hsid & ->)|[(_ & Hact & ->)|[(_ & Hact & _ & ->)|
        [(_ & Hact & _ & Hrc & ->)|(_ & Hact & _ & Hrc & ->)]]]];
    cbn [tag snd]; split; try done.
  - intros Hrc. assert (sid < votingSessionCount st)%N; [|lia].
    apply state_ok_known; auto.
  - intros Hrc. rewrite (Hflags Hrc) in Hact. done.
  - rewrite (Hflags Hrc) in Hact. done.
  - rewrite (Hflags Hrc) in Hact. done.
  - congruence.
Qed.

(** C10: on every reachable state, [getWinners] of a session whose
    results are calculated returns a non-empty list: the session has at
    least two candidates, a tally of the same length, and some position
    of the tally attains its maximum. *)
Theorem getWinners_is_nonempty (st : State) (sid : uint) :
  reachable keccak256 st →
  resultsCalculated (session_at st sid) = true →
  let s := session_at st sid in
  2 ≤ length (candidates s) ∧
  length (finalTally s) = length (candidates s) ∧
  (∃ i, finalTally s !! i = Some (max_tally (finalTally s))) ∧
  ∃ winners, transact (getWinners sid) st = (st, inr winners) ∧
             winners ≠ [] ∧ 1 ≤ length winners.
Proof.
  intros Hreach Hrc s. fold s in Hrc.
  pose proof (state_ok_session_at st sid (reachable_ok _ _ Hreach)) as Hok.
  fold s in Hok. destruct Hok as [Hlen _ _ _ Hcreated].
  assert (H2 : 2 ≤ length (candidates s)) by auto.
  assert (Hne : finalTally s ≠ []).
  { intros E. rewrite E in Hlen. cbn in Hlen. lia. }
  assert (Hw : winners_of s ≠ []).
  { intros E. apply (top_indices_nonempty _ Hne).
    apply (f_equal length) in E. rewrite winners_of_length in E.
    by apply nil_length_inv. }
  repeat split; try done.
  - by apply max_tally_attained.
  - exists (winners_of s). split; [|split; [done|]].
    + unfold transact. rewrite getWinners_run by done. fold s. by rewrite Hrc.
    + destruct (winners_of s); [done|cbn; lia].
Qed.

End Claims.

(** ** The properties on the fruit poll *)

Lemma fruit_open_reachable : reachable digest fruit_open.
Proof. exists (fruit_create :: fruit_votes). reflexivity. Defined.

Lemma fruit_final_reachable : reachable digest fruit_final.
Proof. exists (fruit_create :: fruit_votes ++ [fruit_finalize]). reflexivity. Defined.

(** Why the revert matters: a [createVotingSession] in a block whose
    timestamp is the largest [uint] passes its three checks, increments
    the counter and only then panics in the checked addition of the end
    time; the transaction restores the counter. *)
Lemma create_overflow_is_rolled_back :
  let m := createVotingSession digest "Late" ["Banana"; "Papaya"] 1%N MAX_UINT in
  (∃ st', m init = Reverted ArithmeticOverflow st' ∧
          votingSessionCount st' = 1%N) ∧
  transact m init = (init, inl ArithmeticOverflow).
Proof. split; [eexists; split|]; vm_compute; reflexivity. Qed.

(** The finalized fruit poll: Watermelon, with two of the three votes,
    is the only winner. *)
Lemma getWinners_returns_top_candidates_witness :
  reachable digest fruit_final ∧
  resultsCalculated (session_at fruit_final 0%N) = true ∧
  transact (getWinners 0%N) fruit_final = (fruit_final, inr ["Watermelon"]).
Proof.
  assert (Hc : resultsCalculated (session_at fruit_final 0%N) = true)
    by (vm_compute; reflexivity).
  split; [exact fruit_final_reachable|]. split; [exact Hc|].
  destruct (getWinners_returns_top_candidates digest fruit_final 0%N
              fruit_final_reachable Hc) as [Hw _].
  rewrite Hw. vm_compute. reflexivity.
Defined.

(** The claim as the specification words it fails: voter 1 votes at
    time 110; a second vote of voter 1 at time 161, after the end time
    160 and before any [calculateResults], fails with [SessionEnded],
    not with [AlreadyVoted]. *)
Lemma second_vote_after_end_time_is_not_AlreadyVoted :
  let st0 := run digest init [fruit_create] in
  let first := execute digest st0 (mkTx 1%N 110%N (Vote 0%N 0%N)) in
  let second := execute digest first.1 (mkTx 1%N 161%N (Vote 0%N 1%N)) in
  first.2 = inr None ∧
  second.2 = inl SessionEnded ∧
  second.2 ≠ inl AlreadyVoted.
Proof. vm_compute. repeat split; congruence. Qed.

(** Voter 1 of the fruit poll votes again while the poll is open. *)
Lemma repeated_vote_is_rejected_witness :
  let st0 := run digest init [fruit_create] in
  let tx := mkTx 1%N 110%N (Vote 0%N 0%N) in
  let others := [mkTx 2%N 120%N (Vote 0%N 1%N); mkTx 3%N 130%N (Vote 0%N 1%N)] in
  let st := run digest (execute digest st0 tx).1 others in
  execute digest st0 tx = ((execute digest st0 tx).1, inr None) ∧
  execute digest st (mkTx 1%N 140%N (Vote 0%N 2%N)) = (st, inl AlreadyVoted).
Proof.
  intros st0 tx others st.
  assert (H1 : execute digest st0 tx = ((execute digest st0 tx).1, inr None))
    by (vm_compute; reflexivity).
  split; [exact H1|].
  pose proof (repeated_vote_is_rejected digest st0 (execute digest st0 tx).1
                0%N 0%N 2%N 1%N 110%N 140%N None others H1) as H2.
  cbv zeta in H2. fold st in H2.
  assert (Ha : isActive (session_at st 0%N) = true) by (vm_compute; reflexivity).
  assert (He : (endTimestamp (session_at st 0%N) <? 140)%N = false)
    by (vm_compute; reflexivity).
  rewrite Ha, He in H2. exact H2.
Defined.

Lemma tally_counts_voters_witness :
  reachable digest fruit_open ∧
  sum_tally (finalTally (session_at fruit_open 0%N)) =
    N.of_nat (size (hasVoted (session_at fruit_open 0%N))) ∧
  Forall (λ t, (0 ≤ t ≤ MAX_UINT)%N) (finalTally (session_at fruit_open 0%N)).
Proof.
  split; [exact fruit_open_reachable|].
  exact (tally_counts_voters digest fruit_open 0%N fruit_open_reachable).
Defined.

(** Two candidates of the same name. *)
Lemma create_rejects_bad_input_witness :
  (∃ i j x, i < j ∧ ["Banana"; "Banana"] !! i = Some x ∧
            ["Banana"; "Banana"] !! j = Some x) ∧
  execute digest fruit_open
    (mkTx 9%N 140%N (CreateVotingSession "Best fruit" ["Banana"; "Banana"] 60%N))
  = (fruit_open, inl DuplicateCandidate).
Proof.
  assert (Hdup : ∃ i j x, i < j ∧ ["Banana"; "Banana"] !! i = Some x ∧
                          ["Banana"; "Banana"] !! j = Some x).
  { exists 0, 1, "Banana". split; [lia|]. split; reflexivity. }
  split; [exact Hdup|].
  exact (proj1 (create_rejects_bad_input digest fruit_open 9%N 140%N
                  "Best fruit" ["Banana"; "Banana"] 60%N
                  (or_intror (or_intror Hdup)))).
Defined.

Lemma calls_are_all_or_nothing_witness :
  reachable digest fruit_open ∧
  match execute digest fruit_open fruit_finalize with
  | (st', inl _) => st' = fruit_open
  | (st', inr r) => committed fruit_open fruit_finalize r st'
  end.
Proof.
  split; [exact fruit_open_reachable|].
  exact (calls_are_all_or_nothing digest fruit_open fruit_finalize
           fruit_open_reachable).
Defined.

(** A vote on the fruit poll at time 161, before [calculateResults]. *)
Lemma vote_after_end_time_fails_witness :
  isActive (session_at fruit_open 0%N) = true ∧
  (endTimestamp (session_at fruit_open 0%N) < 161)%N ∧
  execute digest fruit_open (mkTx 4%N 161%N (Vote 0%N 2%N)) =
    (fruit_open, inl SessionEnded).
Proof.
  assert (Ha : isActive (session_at fruit_open 0%N) = true)
    by (vm_compute; reflexivity).
  assert (He : (endTimestamp (session_at fruit_open 0%N) < 161)%N)
    by (vm_compute; reflexivity).
  split; [exact Ha|]. split; [exact He|].
  exact (vote_after_end_time_fails digest fruit_open 0%N 2%N 4%N 161%N Ha He).
Defined.

(** A vote on session 5, which was never created. *)
Lemma vote_on_unknown_session_fails_witness :
  reachable digest fruit_open ∧
  (votingSessionCount fruit_open ≤ 5)%N ∧
  execute digest fruit_open (mkTx 1%N 140%N (Vote 5%N 0%N)) =
    (fruit_open, inl SessionNotActive).
Proof.
  assert (Hs : (votingSessionCount fruit_open ≤ 5)%N)
    by (vm_compute; discriminate).
  split; [exact fruit_open_reachable|]. split; [exact Hs|].
  exact (vote_on_unknown_session_fails digest fruit_open 5%N 0%N 1%N 140%N
           fruit_open_reachable (or_introl Hs)).
Defined.

(** A second [calculateResults] on the finalized fruit poll. *)
Lemma results_already_calculated_is_dead_witness :
  reachable digest fruit_final ∧
  (execute digest fruit_final (mkTx 9%N 170%N (CalculateResults 0%N))).2 ≠
    inl ResultsAlreadyCalculated.
Proof.
  split; [exact fruit_final_reachable|].
  exact (proj1 (proj2 (results_already_calculated_is_dead digest fruit_final
                         0%N 9%N 170%N fruit_final_reachable))).
Defined.

Lemma getWinners_is_nonempty_witness :
  reachable digest fruit_final ∧
  resultsCalculated (session_at fruit_final 0%N) = true ∧
  ∃ winners, transact (getWinners 0%N) fruit_final = (fruit_final, inr winners) ∧
             winners ≠ [] ∧ 1 ≤ length winners.
Proof.
  assert (Hc : resultsCalculated (session_at fruit_final 0%N) = true)
    by (vm_compute; reflexivity).
  split; [exact fruit_final_reachable|]. split; [exact Hc|].
  exact (proj2 (proj2 (proj2 (getWinners_is_nonempty digest fruit_final 0%N
                                fruit_final_reachable Hc)))).
Defined.

(** ** Every call, one case at a time *)

Section Steps.

Variable keccak256 : string → N.

(** A call either fails and changes nothing, or is one of the three
    accepted calls with the state it leaves. *)
Lemma execute_cases st tx :
  let now := tx_timestamp tx in
  let a := tx_sender tx in
  (∃ e, execute keccak256 st tx = (st, inl e)) ∨
  (∃ t c d, tx_call tx = CreateVotingSession t c d ∧
     1 < length c ∧ (0 < d)%N ∧ ¬ digest_clash keccak256 c ∧
     (votingSessionCount st + 1 ≤ MAX_UINT)%N ∧ (now + d ≤ MAX_UINT)%N ∧
     execute keccak256 st tx =
       (create_post st t c d now, inr (Some (votingSessionCount st)))) ∨
  (∃ sid idx t, tx_call tx = Vote sid idx ∧
     isActive (session_at st sid) = true ∧
     (now ≤ endTimestamp (session_at st sid))%N ∧
     (a ∉ hasVoted (session_at st sid)) ∧
     (idx < N.of_nat (length (candidates (session_at st sid))))%N ∧
     finalTally (session_at st sid) !! N.to_nat idx = Some t ∧
     (t + 1 ≤ MAX_UINT)%N ∧
     execute keccak256 st tx = (vote_post st sid idx a t, inr None)) ∨
  (∃ sid, tx_call tx = CalculateResults sid ∧
     (sid < votingSessionCount st)%N ∧
     isActive (session_at st sid) = true ∧
     (endTimestamp (session_at st sid) < now)%N ∧
     resultsCalculated (session_at st sid) = false ∧
     execute keccak256 st tx = (finalize_post st sid, inr None)).
Proof.
  destruct tx as [a now [t c d|sid idx|sid]]; cbn [tx_timestamp tx_sender tx_call].
  - rewrite execute_create.
    destruct (create_cases keccak256 t c d now st)
      as [(_ & ->)|[(_ & _ & ->)|[(_ & _ & _ & ->)|
          [(_ & _ & _ & _ & ->)|(? & ? & ? & ? & ? & ->)]]]]; cbn [tag];
      [left; eauto..|].
    right; left. exists t, c, d. repeat split; auto.
  - rewrite execute_vote.
    destruct (vote_cases sid idx a now st)
      as [(_ & ->)|[(_ & _ & ->)|[(_ & _ & _ & ->)|[(_ & _ & _ & _ & ->)|
          [(_ & _ & _ & _ & _ & ->)|[(_ & _ & _ & _ & _ & ->)|
          (? & ? & ? & ? & t & ? & ? & ->)]]]]]]; cbn [tag];
      [left; eauto..|].
    right; right; left. exists sid, idx, t. repeat split; auto.
  - rewrite execute_calculate.
    destruct (calculateResults_cases sid now st)
      as [(_ & ->)|[(_ & _ & ->)|[(_ & _ & _ & ->)|[(_ & _ & _ & _ & ->)|
          (? & ? & ? & ? & ->)]]]]; cbn [tag];
      [left; eauto..|].
    right; right; right. exists sid. repeat split; auto.
Qed.

(** The session counter never decreases. *)
Lemma execute_count_mono st tx :
  (votingSessionCount st ≤ votingSessionCount (execute keccak256 st tx).1)%N.
Proof.
  pose proof (execute_count keccak256 st tx) as H.
  destruct (execute keccak256 st tx) as [st' [e|[sessionId|]]]; cbn [fst]; lia.
Qed.

Lemma run_count_mono st txs :
  (votingSessionCount st ≤ votingSessionCount (run keccak256 st txs))%N.
Proof.
  revert st. induction txs as [|tx txs IH]; intros st; [done|].
  cbn. etrans; [apply (execute_count_mono st tx)|apply IH].
Qed.

(** Pairwise distinct digests are pairwise distinct strings. *)
Lemma no_clash_NoDup (c : list string) : ¬ digest_clash keccak256 c → NoDup c.
Proof.
  intros Hc. apply NoDup_alt. intros i j x Hi Hj.
  destruct (Nat.lt_trichotomy i j) as [Hlt|[->|Hlt]]; [|done|];
    exfalso; apply Hc.
  - by exists i, j, x, x.
  - by exists j, i, x, x.
Qed.

Lemma session_at_Some st sid s :
  votingSessions st !! sid = Some s → session_at st sid = s.
Proof. unfold session_at. by intros ->. Qed.

Lemma state_dense_session_at st sid :
  state_dense st → (sid < votingSessionCount st)%N →
  votingSessions st !! sid = Some (session_at st sid) ∧
  session_created (session_at st sid).
Proof.
  intros Hd Hsid. destruct (Hd sid Hsid) as (s & Hs & Hc).
  by rewrite (session_at_Some _ _ _ Hs).
Qed.

Lemma init_dense : state_dense init.
Proof. intros sid. cbn. lia. Qed.

Lemma execute_dense st tx :
  state_ok st → state_dense st → state_dense (execute keccak256 st tx).1.
Proof.
  intros Hok Hd.
  destruct (execute_cases st tx)
    as [[e ->]|[(t & c & d & _ & Hlen & Hdur & Hc & Hn & He & ->)|
       [(sid & idx & t & _ & Hact & _ & _ & _ & _ & _ & ->)|
        (sid & _ & Hsid & Hact & _ & Hrc & ->)]]]; cbn [fst]; [done|..].
  - intros sid'. unfold create_post. cbn [votingSessions votingSessionCount].
    intros Hsid'. rewrite lookup_insert. case_decide as E.
    + eexists. split; [done|].
      rewrite (session_at_None st (votingSessionCount st))
        by (apply state_ok_fresh; [done|lia]).
      unfold created_session, default_session. split; session_fields.
      * lia.
      * by apply no_clash_NoDup.
      * done.
    + apply Hd. lia.
  - intros sid'. unfold vote_post. cbn [votingSessions votingSessionCount].
    intros Hsid'. rewrite lookup_insert. case_decide as E; [|by apply Hd].
    subst sid'. eexists. split; [done|].
    destruct (state_dense_session_at st sid Hd Hsid') as [_ [Hw Hn Hp]].
    split; session_fields; done.
  - intros sid'. unfold finalize_post. cbn [votingSessions votingSessionCount].
    intros Hsid'. rewrite lookup_insert. case_decide as E; [|by apply Hd].
    subst sid'. eexists. split; [done|].
    destruct (state_dense_session_at st sid Hd Hsid') as [_ [Hw Hn Hp]].
    split; session_fields; done.
Qed.

Lemma run_dense st txs :
  state_ok st → state_dense st → state_dense (run keccak256 st txs).
Proof.
  revert st. induction txs as [|tx txs IH]; intros st Hok Hd; [done|].
  cbn. apply IH; [by apply execute_ok|by apply execute_dense].
Qed.

Lemma reachable_dense st : reachable keccak256 st → state_dense st.
Proof. intros [txs ->]. apply run_dense; [apply init_ok|apply init_dense]. Qed.

End Steps.

(** ** The log and the storage *)

Lemma session_at_create_post st t c d now sid :
  session_at (create_post st t c d now) sid =
  if decide (votingSessionCount st = sid)
  then created_session (session_at st sid) t c d now
  else session_at st sid.
Proof.
  unfold create_post. case_decide as E.
  - subst sid. by rewrite session_at_insert_eq.
  - by rewrite session_at_insert_ne.
Qed.

Lemma session_at_vote_post st sid idx a t sid' :
  session_at (vote_post st sid idx a t) sid' =
  if decide (sid = sid')
  then set_finalTally (<[N.to_nat idx := (t + 1)%N]> (finalTally (session_at st sid)))
         (set_hasVoted ({[a]} ∪ hasVoted (session_at st sid)) (session_at st sid))
  else session_at st sid'.
Proof.
  unfold vote_post. case_decide as E.
  - subst sid'. by rewrite session_at_insert_eq.
  - by rewrite session_at_insert_ne.
Qed.

Lemma session_at_finalize_post st sid sid' :
  session_at (finalize_post st sid) sid' =
  if decide (sid = sid')
  then set_isActive false (set_resultsCalculated true (session_at st sid))
  else session_at st sid'.
Proof.
  unfold finalize_post. case_decide as E.
  - subst sid'. by rewrite session_at_insert_eq.
  - by rewrite session_at_insert_ne.
Qed.

Lemma votes_in_log_app sid i l l' :
  votes_in_log sid i (l ++ l') =
  (votes_in_log sid i l + votes_in_log sid i l')%N.
Proof.
  induction l as [|ev l IH]; cbn [app votes_in_log]; [done|].
  destruct ev; try done. case_decide; rewrite IH; lia.
Qed.

Lemma votes_in_log_none sid i l :
  (∀ ev, ev ∈ l → event_session ev ≠ sid) → votes_in_log sid i l = 0%N.
Proof.
  induction l as [|ev l IH]; intros Hall; cbn [votes_in_log]; [done|].
  assert (Hl : votes_in_log sid i l = 0%N).
  { apply IH. intros ev' Hev'. apply Hall. by apply list_elem_of_further. }
  destruct ev; try done. rewrite decide_False; [done|].
  intros [-> _]. by apply (Hall _ (list_elem_of_here _ _)).
Qed.

Lemma sessions_in_log_app l l' :
  sessions_in_log (l ++ l') = sessions_in_log l ++ sessions_in_log l'.
Proof.
  induction l as [|ev l IH]; cbn [app sessions_in_log]; [done|].
  destruct ev; by rewrite ?IH.
Qed.

Lemma elem_of_snoc {A} (l : list A) x y : y ∈ l ++ [x] ↔ y ∈ l ∨ y = x.
Proof. rewrite elem_of_app, list_elem_of_singleton. done. Qed.

Lemma init_log_ok : log_ok init.
Proof.
  split; cbn.
  - intros ev Hev. by apply not_elem_of_nil in Hev.
  - intros sid i t. unfold session_at. cbn. by rewrite lookup_empty.
  - intros sid a. unfold session_at. cbn. rewrite lookup_empty. cbn. split.
    + intros H. by apply not_elem_of_empty in H.
    + intros [idx H]. by apply not_elem_of_nil in H.
  - intros sid tally H. by apply not_elem_of_nil in H.
  - intros sid t c s e H. by apply not_elem_of_nil in H.
  - done.
Qed.

Lemma create_post_log_ok st t c d now :
  state_ok st → log_ok st → log_ok (create_post st t c d now).
Proof.
  intros Hok [Hknown Htally Hvoters Hresults Hcreated Hsessions].
  assert (Hfresh : session_at st (votingSessionCount st) = default_session).
  { apply session_at_None, state_ok_fresh; [done|lia]. }
  assert (Hnone : ∀ ev, ev ∈ events st →
                        event_session ev ≠ votingSessionCount st).
  { intros ev Hev E. specialize (Hknown ev Hev). lia. }
  split.
  - intros ev. unfold create_post. cbn [events votingSessionCount].
    rewrite elem_of_snoc. intros [Hev| ->]; [specialize (Hknown ev Hev)|cbn]; lia.
  - intros sid i x. rewrite session_at_create_post.
    unfold create_post at 1. cbn [events]. rewrite votes_in_log_app.
    cbn [votes_in_log]. rewrite N.add_0_r. case_decide as E.
    + subst sid. unfold created_session. session_fields.
      intros Hx. apply lookup_replicate in Hx as [-> _].
      by rewrite votes_in_log_none.
    + apply Htally.
  - intros sid a. rewrite session_at_create_post.
    unfold create_post at 1. cbn [events].
    setoid_rewrite elem_of_snoc. case_decide as E.
    + subst sid. rewrite Hfresh. unfold created_session, default_session.
      session_fields. split.
      * intros H. by apply not_elem_of_empty in H.
      * intros [idx [H|H]]; [|done]. by apply Hnone in H.
    + rewrite Hvoters. split.
      * intros [idx H]. exists idx. by left.
      * intros [idx [H|H]]; [by exists idx|done].
  - intros sid tally. unfold create_post at 1. cbn [events].
    rewrite elem_of_snoc. intros [H|H]; [|done].
    rewrite session_at_create_post, decide_False.
    + by apply Hresults.
    + intros E. by apply (Hnone _ H).
  - intros sid t' c' s' e'. unfold create_post at 1. cbn [events].
    rewrite elem_of_snoc. intros [H|H].
    + rewrite session_at_create_post, decide_False.
      * by apply Hcreated.
      * intros E. by apply (Hnone _ H).
    + injection H as -> -> -> -> ->.
      rewrite session_at_create_post, decide_True by done.
      unfold created_session. session_fields. done.
  - unfold create_post. cbn [events votingSessionCount].
    rewrite sessions_in_log_app, Hsessions. cbn [sessions_in_log].
    replace (N.to_nat (votingSessionCount st + 1))
      with (S (N.to_nat (votingSessionCount st))) by lia.
    rewrite seq_S, fmap_app. cbn [Nat.add fmap list_fmap].
    by rewrite N2Nat.id.
Qed.

Lemma vote_post_log_ok st sid idx a t :
  state_ok st → log_ok st →
  isActive (session_at st sid) = true →
  finalTally (session_at st sid) !! N.to_nat idx = Some t →
  log_ok (vote_post st sid idx a t).
Proof.
  intros Hok [Hknown Htally Hvoters Hresults Hcreated Hsessions] Hact Ht.
  assert (Hsid : (sid < votingSessionCount st)%N)
    by (apply state_ok_known; auto).
  split.
  - intros ev. unfold vote_post. cbn [events votingSessionCount].
    rewrite elem_of_snoc. intros [Hev| ->]; [by apply Hknown|done].
  - intros sid' i x. rewrite session_at_vote_post.
    unfold vote_post at 1. cbn [events]. rewrite votes_in_log_app.
    cbn [votes_in_log]. case_decide as E.
    + subst sid'. session_fields.
      destruct (decide (N.to_nat idx = i)) as [<-|Hne].
      * rewrite list_lookup_insert_eq by (by eapply lookup_lt_Some).
        intros [= <-]. rewrite decide_True by done.
        rewrite (Htally _ _ _ Ht). lia.
      * rewrite list_lookup_insert_ne by done. intros Hx.
        rewrite decide_False by (by intros [_ ?]).
        rewrite (Htally _ _ _ Hx). lia.
    + intros Hx. rewrite decide_False by (by intros [? _]).
      rewrite (Htally _ _ _ Hx). lia.
  - intros sid' b. rewrite session_at_vote_post.
    unfold vote_post at 1. cbn [events].
    setoid_rewrite elem_of_snoc. case_decide as E.
    + subst sid'. session_fields. rewrite elem_of_union, elem_of_singleton.
      rewrite Hvoters. split.
      * intros [->|[idx' H]]; [exists idx; by right|exists idx'; by left].
      * intros [idx' [H|H]]; [right; by exists idx'|left; congruence].
    + rewrite Hvoters. split.
      * intros [idx' H]. exists idx'. by left.
      * intros [idx' [H|H]]; [by exists idx'|congruence].
  - intros sid' tally. unfold vote_post at 1. cbn [events].
    rewrite elem_of_snoc. intros [H|H]; [|done].
    destruct (Hresults _ _ H) as [Hrc Hfinal].
    rewrite session_at_vote_post, decide_False; [done|].
    intros ->. pose proof (state_ok_session_at st sid' Hok) as [_ _ _ Hflags _].
    rewrite (Hflags Hrc) in Hact. done.
  - intros sid' t' c' s' e'. unfold vote_post at 1. cbn [events].
    rewrite elem_of_snoc. intros [H|H]; [|done].
    rewrite session_at_vote_post. case_decide as E.
    + subst sid'. session_fields. by apply Hcreated.
    + by apply Hcreated.
  - unfold vote_post. cbn [events votingSessionCount].
    rewrite sessions_in_log_app, Hsessions. cbn [sessions_in_log].
    by rewrite app_nil_r.
Qed.

Lemma finalize_post_log_ok st sid :
  log_ok st → (sid < votingSessionCount st)%N → log_ok (finalize_post st sid).
Proof.
  intros [Hknown Htally Hvoters Hresults Hcreated Hsessions] Hsid.
  split.
  - intros ev. unfold finalize_post. cbn [events votingSessionCount].
    rewrite elem_of_snoc. intros [Hev| ->]; [by apply Hknown|done].
  - intros sid' i x. rewrite session_at_finalize_post.
    unfold finalize_post at 1. cbn [events]. rewrite votes_in_log_app.
    cbn [votes_in_log]. rewrite N.add_0_r.
    case_decide as E; [subst sid'; session_fields|]; apply Htally.
  - intros sid' b. rewrite session_at_finalize_post.
    unfold finalize_post at 1. cbn [events].
    setoid_rewrite elem_of_snoc.
    assert (Hsame : b ∈ hasVoted (session_at st sid') ↔
              ∃ idx, VoteCast sid' b idx ∈ events st ∨
                     VoteCast sid' b idx =
                       ResultsCalculated sid (finalTally (session_at st sid))).
    { rewrite Hvoters. split.
      - intros [idx' H]. exists idx'. by left.
      - intros [idx' [H|H]]; [by exists idx'|done]. }
    case_decide as E; [subst sid'; session_fields|]; exact Hsame.
  - intros sid' tally. unfold finalize_post at 1. cbn [events].
    rewrite elem_of_snoc. rewrite session_at_finalize_post. intros [H|H].
    + destruct (Hresults _ _ H) as [Hrc Hfinal].
      case_decide as E; [subst sid'; session_fields|]; done.
    + injection H as -> ->. rewrite decide_True by done. session_fields. done.
  - intros sid' t' c' s' e'. unfold finalize_post at 1. cbn [events].
    rewrite elem_of_snoc. intros [H|H]; [|done].
    rewrite session_at_finalize_post.
    case_decide as E; [subst sid'; session_fields|]; by apply Hcreated.
  - unfold finalize_post. cbn [events votingSessionCount].
    rewrite sessions_in_log_app, Hsessions. cbn [sessions_in_log].
    by rewrite app_nil_r.
Qed.

Section LogInvariant.

Variable keccak256 : string → N.

Lemma execute_log_ok st tx :
  state_ok st → log_ok st → log_ok (execute keccak256 st tx).1.
Proof.
  intros Hok Hlog.
  destruct (execute_cases keccak256 st tx)
    as [[e ->]|[(t & c & d & _ & _ & _ & _ & _ & _ & ->)|
       [(sid & idx & t & _ & Hact & _ & _ & _ & Ht & _ & ->)|
        (sid & _ & Hsid & _ & _ & _ & ->)]]]; cbn [fst]; [done|..].
  - by apply create_post_log_ok.
  - by apply vote_post_log_ok.
  - by apply finalize_post_log_ok.
Qed.

Lemma run_log_ok st txs :
  state_ok st → log_ok st → log_ok (run keccak256 st txs).
Proof.
  revert st. induction txs as [|tx txs IH]; intros st Hok Hlog; [done|].
  cbn. apply IH; [by apply execute_ok|by apply execute_log_ok].
Qed.

Lemma reachable_log_ok st : reachable keccak256 st → log_ok st.
Proof. intros [txs ->]. apply run_log_ok; [apply init_ok|apply init_log_ok]. Qed.

End LogInvariant.

(** ** What a call leaves alone *)

Section Frames.

Variable keccak256 : string → N.


(** The fields set at creation are never written again. *)
Lemma execute_metadata st tx sid :
  (sid < votingSessionCount st)%N →
  let s := session_at st sid in
  let s' := session_at (execute keccak256 st tx).1 sid in
  title s' = title s ∧ candidates s' = candidates s ∧
  startTimestamp s' = startTimestamp s ∧ endTimestamp s' = endTimestamp s ∧
  length (finalTally s') = length (finalTally s).
Proof.
  intros Hsid s s'. subst s s'.
  destruct (execute_cases keccak256 st tx)
    as [[e ->]|[(t & c & d & _ & _ & _ & _ & _ & _ & ->)|
       [(sid' & idx & t & _ & _ & _ & _ & _ & _ & _ & ->)|
        (sid' & _ & _ & _ & _ & _ & ->)]]]; cbn [fst]; [done|..].
  - rewrite session_at_create_post. rewrite decide_False by lia. done.
  - rewrite session_at_vote_post. case_decide as E; [subst sid'|done].
    session_fields. by rewrite length_insert.
  - rewrite session_at_finalize_post. case_decide as E; [subst sid'|done].
    session_fields. done.
Qed.

(** A created slot that is not active is never written again. *)
Lemma execute_closed st tx sid :
  (sid < votingSessionCount st)%N →
  isActive (session_at st sid) = false →
  session_at (execute keccak256 st tx).1 sid = session_at st sid.
Proof.
  intros Hsid Hact.
  destruct (execute_cases keccak256 st tx)
    as [[e ->]|[(t & c & d & _ & _ & _ & _ & _ & _ & ->)|
       [(sid' & idx & t & _ & Hact' & _ & _ & _ & _ & _ & ->)|
        (sid' & _ & _ & Hact' & _ & _ & ->)]]]; cbn [fst]; [done|..].
  - rewrite session_at_create_post. rewrite decide_False by lia. done.
  - rewrite session_at_vote_post. case_decide as E; [subst sid'|done]. congruence.
  - rewrite session_at_finalize_post. case_decide as E; [subst sid'|done].
    congruence.
Qed.

Lemma run_closed st txs sid :
  (sid < votingSessionCount st)%N →
  isActive (session_at st sid) = false →
  session_at (run keccak256 st txs) sid = session_at st sid.
Proof.
  revert st. induction txs as [|tx txs IH]; intros st Hsid Hact; [done|].
  cbn. fold (run keccak256 (execute keccak256 st tx).1 txs).
  pose proof (execute_closed st tx sid Hsid Hact) as Hsame.
  rewrite IH; [done| |by rewrite Hsame].
  pose proof (execute_count_mono keccak256 st tx). lia.
Qed.

Lemma run_metadata st txs sid :
  (sid < votingSessionCount st)%N →
  let s := session_at st sid in
  let s' := session_at (run keccak256 st txs) sid in
  title s' = title s ∧ candidates s' = candidates s ∧
  startTimestamp s' = startTimestamp s ∧ endTimestamp s' = endTimestamp s ∧
  length (finalTally s') = length (finalTally s).
Proof.
  revert st. induction txs as [|tx txs IH]; intros st Hsid; [done|].
  cbn. fold (run keccak256 (execute keccak256 st tx).1 txs).
  destruct (execute_metadata st tx sid Hsid) as (E1 & E2 & E3 & E4 & E5).
  destruct (IH (execute keccak256 st tx).1) as (F1 & F2 & F3 & F4 & F5).
  { pose proof (execute_count_mono keccak256 st tx). lia. }
  cbv zeta in *. repeat split; congruence.
Qed.

(** The counts of a created session never go down. *)
Lemma execute_tally_mono st tx sid i t :
  (sid < votingSessionCount st)%N →
  finalTally (session_at st sid) !! i = Some t →
  ∃ t', finalTally (session_at (execute keccak256 st tx).1 sid) !! i = Some t' ∧
        (t ≤ t')%N.
Proof.
  intros Hsid Ht.
  destruct (execute_cases keccak256 st tx)
    as [[e ->]|[(t0 & c & d & _ & _ & _ & _ & _ & _ & ->)|
       [(sid' & idx & t0 & _ & _ & _ & _ & _ & Ht0 & _ & ->)|
        (sid' & _ & _ & _ & _ & _ & ->)]]]; cbn [fst].
  - by exists t.
  - rewrite session_at_create_post. rewrite decide_False by lia. by exists t.
  - rewrite session_at_vote_post. case_decide as E; [subst sid'|by exists t].
    session_fields. destruct (decide (N.to_nat idx = i)) as [<-|Hne].
    + rewrite list_lookup_insert_eq by (by eapply lookup_lt_Some).
      exists (t0 + 1)%N. split; [done|]. rewrite Ht in Ht0. injection Ht0 as ->. lia.
    + rewrite list_lookup_insert_ne by done. by exists t.
  - rewrite session_at_finalize_post. case_decide as E; [subst sid'|by exists t].
    session_fields. by exists t.
Qed.

Lemma run_tally_mono st txs sid i t :
  (sid < votingSessionCount st)%N →
  finalTally (session_at st sid) !! i = Some t →
  ∃ t', finalTally (session_at (run keccak256 st txs) sid) !! i = Some t' ∧
        (t ≤ t')%N.
Proof.
  revert st t. induction txs as [|tx txs IH]; intros st t Hsid Ht.
  { by exists t. }
  cbn. fold (run keccak256 (execute keccak256 st tx).1 txs).
  destruct (execute_tally_mono st tx sid i t Hsid Ht) as (t1 & Ht1 & Hle1).
  destruct (IH (execute keccak256 st tx).1 t1) as (t2 & Ht2 & Hle2); [|done|].
  { pose proof (execute_count_mono keccak256 st tx). lia. }
  exists t2. split; [done|lia].
Qed.

End Frames.

Lemma winners_sublist s :
  length (finalTally s) = length (candidates s) →
  sublist (winners_of s) (candidates s).
Proof.
  intros Hlen. unfold winners_of, top_indices.
  assert (Hsub : sublist
            ((λ i, candidates s !!! i) <$>
               filter (λ i, finalTally s !! i = Some (max_tally (finalTally s)))
                      (seq 0 (length (finalTally s))))
            ((λ i, candidates s !!! i) <$> seq 0 (length (candidates s)))).
  { apply fmap_sublist. rewrite Hlen. apply sublist_filter. }
  by rewrite fmap_lookup_total_seq in Hsub.
Qed.

(** ** Further properties of the contract *)

Lemma getSessionInfo_run sid st :
  transact (View.getSessionInfo sid) st =
  (st, inr (title (session_at st sid), candidates (session_at st sid),
            isActive (session_at st sid), resultsCalculated (session_at st sid),
            startTimestamp (session_at st sid), endTimestamp (session_at st sid))).
Proof. reflexivity. Qed.

Lemma getTally_run sid st :
  transact (View.getTally sid) st = (st, inr (finalTally (session_at st sid))).
Proof. reflexivity. Qed.

Lemma hasVoted_run sid v st :
  transact (View.hasVoted sid v) st =
  (st, inr (bool_decide (v ∈ hasVoted (session_at st sid)))).
Proof. reflexivity. Qed.

Lemma getWinners_not_ready sid st :
  resultsCalculated (session_at st sid) = false →
  transact (getWinners sid) st = (st, inl ResultsNotReady).
Proof.
  intros Hrc. unfold transact, getWinners.
  rewrite bind_sload, bind_require, Hrc. done.
Qed.

Section Extras.

Variable keccak256 : string → N.

(** X1: [createVotingSession] is accepted exactly when there are at
    least two candidates, the duration is positive, no two candidates
    have the same digest, and neither the counter nor the end time
    overflows; it then returns the old counter, and the candidates are
    pairwise distinct strings.  Otherwise it changes nothing. *)
Theorem create_accepted_exactly_when (st : State) (a : address) (now : uint)
    (t : string) (c : list string) (d : uint) :
  let admissible :=
    1 < length c ∧ (0 < d)%N ∧ ¬ digest_clash keccak256 c ∧
    (votingSessionCount st + 1 ≤ MAX_UINT)%N ∧ (now + d ≤ MAX_UINT)%N in
  match execute keccak256 st (mkTx a now (CreateVotingSession t c d)) with
  | (st', inr r) =>
      admissible ∧ NoDup c ∧ r = Some (votingSessionCount st) ∧
      st' = create_post st t c d now
  | (st', inl _) => ¬ admissible ∧ st' = st
  end.
Proof.
  intros admissible. subst admissible. rewrite execute_create.
  destruct (create_cases keccak256 t c d now st)
    as [(? & ->)|[(? & ? & ->)|[(? & ? & ? & ->)|
        [(? & ? & ? & [?|?] & ->)|(? & ? & Hc & ? & ? & ->)]]]]; cbn [tag];
    try (split; [|done]; intros (? & ? & ? & ? & ?); done || lia).
  repeat split; auto. by apply (no_clash_NoDup keccak256).
Qed.

(** X2: on every reachable state [vote] never stops at an array bound:
    its outcome is decided by its four checks in their order and by the
    checked increment, and when these pass the vote is recorded. *)
Theorem vote_outcome_on_reachable (st : State) (sid idx : uint)
    (a : address) (now : uint) :
  reachable keccak256 st →
  let s := session_at st sid in
  let t := finalTally s !!! N.to_nat idx in
  execute keccak256 st (mkTx a now (Vote sid idx)) =
    if negb (isActive s) then (st, inl SessionNotActive)
    else if (endTimestamp s <? now)%N then (st, inl SessionEnded)
    else if bool_decide (a ∈ hasVoted s) then (st, inl AlreadyVoted)
    else if (N.of_nat (length (candidates s)) <=? idx)%N
      then (st, inl InvalidCandidateIndex)
    else if (t + 1 <=? MAX_UINT)%N then (vote_post st sid idx a t, inr None)
    else (st, inl ArithmeticOverflow).
Proof.
  intros Hreach s t. subst s t.
  pose proof (state_ok_session_at st sid (reachable_ok _ _ Hreach)) as Hok.
  destruct Hok as [Hlen _ _ _ _].
  rewrite execute_vote.
  destruct (vote_cases sid idx a now st)
    as [(Hact & ->)|[(Hact & Hend & ->)|[(Hact & Hend & Hv & ->)|
        [(Hact & Hend & Hv & Hidx & ->)|[(Hact & Hend & Hv & Hidx & Ht & ->)|
        [(Hact & Hend & Hv & Hidx & (t' & Ht & Hov) & ->)|
         (Hact & Hend & Hv & Hidx & t' & Ht & Hov & ->)]]]]]];
    cbn [tag]; rewrite Hact; cbn [negb]; [done|..];
    try (apply N.ltb_lt in Hend as Hend'; rewrite Hend'; done);
    apply N.ltb_ge in Hend as Hend'; rewrite Hend'.
  - by rewrite bool_decide_eq_true_2.
  - rewrite bool_decide_eq_false_2 by done.
    apply N.leb_le in Hidx. by rewrite Hidx.
  - apply lookup_ge_None in Ht. lia.
  - rewrite bool_decide_eq_false_2 by done.
    apply N.leb_gt in Hidx. rewrite Hidx.
    rewrite (list_lookup_total_correct _ _ _ Ht).
    apply N.leb_gt in Hov. by rewrite Hov.
  - rewrite bool_decide_eq_false_2 by done.
    apply N.leb_gt in Hidx. rewrite Hidx.
    rewrite (list_lookup_total_correct _ _ _ Ht).
    apply N.leb_le in Hov. by rewrite Hov.
Qed.

(** X3: on every reachable state the outcome of [calculateResults] is
    decided by three checks: an id not below the counter is unknown, a
    session that is not active is already finalized, a session whose end
    time has not passed is still active; otherwise the session is
    closed and marked as calculated. *)
Theorem calculateResults_outcome_on_reachable (st : State) (sid : uint)
    (a : address) (now : uint) :
  reachable keccak256 st →
  let s := session_at st sid in
  execute keccak256 st (mkTx a now (CalculateResults sid)) =
    if (votingSessionCount st <=? sid)%N then (st, inl UnknownSession)
    else if negb (isActive s) then (st, inl AlreadyFinalized)
    else if (now <=? endTimestamp s)%N then (st, inl SessionStillActive)
    else (finalize_post st sid, inr None).
Proof.
  intros Hreach s. subst s.
  pose proof (state_ok_session_at st sid (reachable_ok _ _ Hreach)) as Hok.
  destruct Hok as [_ _ _ Hflags _].
  rewrite execute_calculate.
  destruct (calculateResults_cases sid now st)
    as [(Hsid & ->)|[(Hsid & Hact & ->)|[(Hsid & Hact & Hend & ->)|
        [(Hsid & Hact & Hend & Hrc & ->)|(Hsid & Hact & Hend & Hrc & ->)]]]];
    cbn [tag].
  - apply N.leb_le in Hsid. by rewrite Hsid.
  - apply N.leb_gt in Hsid. rewrite Hsid, Hact. done.
  - apply N.leb_gt in Hsid. rewrite Hsid, Hact. cbn [negb].
    apply N.leb_le in Hend. by rewrite Hend.
  - rewrite (Hflags Hrc) in Hact. done.
  - apply N.leb_gt in Hsid. rewrite Hsid, Hact. cbn [negb].
    apply N.leb_gt in Hend. by rewrite Hend.
Qed.

(** X4: on every reachable state, the session an accepted
    [createVotingSession] returns reads back as created: the accessors
    give the title, the candidates, the active flag, the two timestamps,
    a tally of zeros with one entry per candidate and no voter, and
    [getWinners] is not ready. *)
Theorem created_session_reads_back (st st' : State) (a : address) (now : uint)
    (t : string) (c : list string) (d : uint) (r : option uint) :
  reachable keccak256 st →
  execute keccak256 st (mkTx a now (CreateVotingSession t c d)) = (st', inr r) →
  let sid := votingSessionCount st in
  r = Some sid ∧
  transact (View.getSessionInfo sid) st' =
    (st', inr (t, c, true, false, now, (now + d)%N)) ∧
  transact (View.getTally sid) st' = (st', inr (replicate (length c) 0%N)) ∧
  (∀ v, transact (View.hasVoted sid v) st' = (st', inr false)) ∧
  transact (getWinners sid) st' = (st', inl ResultsNotReady).
Proof.
  intros Hreach Hex sid. subst sid.
  pose proof (reachable_ok _ _ Hreach) as Hok.
  assert (Hfresh : session_at st (votingSessionCount st) = default_session).
  { apply session_at_None, state_ok_fresh; [done|lia]. }
  rewrite execute_create in Hex.
  destruct (create_cases keccak256 t c d now st)
    as [(_ & Hr)|[(_ & _ & Hr)|[(_ & _ & _ & Hr)|
        [(_ & _ & _ & _ & Hr)|(_ & _ & _ & _ & _ & Hr)]]]];
    rewrite Hr in Hex; cbn [tag] in Hex; try done.
  injection Hex as <- <-.
  assert (Hs : session_at (create_post st t c d now) (votingSessionCount st) =
               mkSession t c true now (now + d)%N false
                         (replicate (length c) 0%N) ∅).
  { rewrite session_at_create_post, decide_True by done. by rewrite Hfresh. }
  split; [done|].
  rewrite getSessionInfo_run, getTally_run, Hs. cbn [title candidates isActive
    resultsCalculated startTimestamp endTimestamp finalTally].
  repeat split.
  - intros v. rewrite hasVoted_run, Hs. cbn [hasVoted].
    by rewrite bool_decide_eq_false_2 by apply not_elem_of_empty.
  - apply getWinners_not_ready. by rewrite Hs.
Qed.

(** X5: on every reachable state, a session id that was never handed
    out reads as the all-zero session: the accessors do not fail, they
    return an empty title, no candidates, both flags false, zero
    timestamps, an empty tally and no voter; [getWinners] is not ready
    and [calculateResults] reports an unknown session. *)
Theorem unknown_session_reads_as_empty (st : State) (sid : uint)
    (a : address) (now : uint) :
  reachable keccak256 st →
  (votingSessionCount st ≤ sid)%N →
  transact (View.getSessionInfo sid) st =
    (st, inr (""%string, [], false, false, 0%N, 0%N)) ∧
  transact (View.getTally sid) st = (st, inr []) ∧
  (∀ v, transact (View.hasVoted sid v) st = (st, inr false)) ∧
  transact (getWinners sid) st = (st, inl ResultsNotReady) ∧
  execute keccak256 st (mkTx a now (CalculateResults sid)) =
    (st, inl UnknownSession).
Proof.
  intros Hreach Hsid. pose proof (reachable_ok _ _ Hreach) as Hok.
  assert (Hs : session_at st sid = default_session)
    by (by apply session_at_None, state_ok_fresh).
  rewrite getSessionInfo_run, getTally_run, Hs. repeat split.
  - intros v. rewrite hasVoted_run, Hs. cbn.
    by rewrite bool_decide_eq_false_2 by apply not_elem_of_empty.
  - apply getWinners_not_ready. by rewrite Hs.
  - rewrite execute_calculate.
    destruct (calculateResults_cases sid now st)
      as [(_ & ->)|[(? & _)|[(? & _)|[(? & _)|(? & _)]]]]; [done|lia..].
Qed.


(** X7: what [createVotingSession] stores is never written again:
    whatever calls follow, a session below the counter keeps its title,
    its candidates, its two timestamps and the length of its tally. *)
Theorem session_data_is_immutable (st : State) (sid : uint) (txs : list Tx) :
  (sid < votingSessionCount st)%N →
  let s := session_at st sid in
  let s' := session_at (run keccak256 st txs) sid in
  title s' = title s ∧ candidates s' = candidates s ∧
  startTimestamp s' = startTimestamp s ∧ endTimestamp s' = endTimestamp s ∧
  length (finalTally s') = length (finalTally s).
Proof. apply run_metadata. Qed.

(** X8: finalization is terminal.  On every reachable state, a session
    whose results are calculated is never changed by any later calls:
    its whole record, hence its tally and the answer of [getWinners],
    stay what they are. *)
Theorem finalized_session_is_frozen (st : State) (sid : uint) (txs : list Tx) :
  reachable keccak256 st →
  resultsCalculated (session_at st sid) = true →
  let st' := run keccak256 st txs in
  session_at st' sid = session_at st sid ∧
  transact (View.getTally sid) st' = (st', inr (finalTally (session_at st sid))) ∧
  transact (getWinners sid) st' = (st', inr (winners_of (session_at st sid))).
Proof.
  intros Hreach Hrc st'. pose proof (reachable_ok _ _ Hreach) as Hok.
  pose proof (state_ok_session_at st sid Hok) as [Hlen _ _ Hflags _].
  assert (Hs : session_at st' sid = session_at st sid).
  { apply run_closed; [apply state_ok_known; auto|auto]. }
  rewrite getTally_run, Hs. repeat split.
  unfold transact. rewrite getWinners_run by (by rewrite Hs).
  by rewrite Hs, Hrc.
Qed.

(** X9: a session is finalized at most once.  After an accepted
    [calculateResults], whatever calls follow, every further
    [calculateResults] on the session fails with [AlreadyFinalized] and
    every vote on it fails with [SessionNotActive]. *)
Theorem finalization_happens_once (st st1 : State) (sid idx : uint)
    (a b : address) (now now' : uint) (r : option uint) (txs : list Tx) :
  execute keccak256 st (mkTx a now (CalculateResults sid)) = (st1, inr r) →
  let st' := run keccak256 st1 txs in
  execute keccak256 st' (mkTx b now' (CalculateResults sid)) =
    (st', inl AlreadyFinalized) ∧
  execute keccak256 st' (mkTx b now' (Vote sid idx)) =
    (st', inl SessionNotActive).
Proof.
  intros Hex st'. rewrite execute_calculate in Hex.
  destruct (calculateResults_cases sid now st)
    as [(_ & Hr)|[(_ & _ & Hr)|[(_ & _ & _ & Hr)|[(_ & _ & _ & _ & Hr)|
        (Hsid & _ & _ & _ & Hr)]]]]; rewrite Hr in Hex; cbn [tag] in Hex;
    try done.
  injection Hex as <- <-.
  assert (Hact1 : isActive (session_at (finalize_post st sid) sid) = false).
  { rewrite session_at_finalize_post, decide_True by done. done. }
  assert (Hact : isActive (session_at st' sid) = false).
  { subst st'. rewrite run_closed; [done|done|done]. }
  assert (Hcount : (sid < votingSessionCount st')%N).
  { pose proof (run_count_mono keccak256 (finalize_post st sid) txs) as Hm.
    fold st' in Hm. cbn in Hm. lia. }
  split.
  - rewrite execute_calculate.
    destruct (calculateResults_cases sid now' st')
      as [(? & _)|[(_ & _ & ->)|[(_ & ? & _)|[(_ & ? & _)|(_ & ? & _)]]]];
      [lia|done|congruence..].
  - rewrite execute_vote.
    destruct (vote_cases sid idx b now' st')
      as [(_ & ->)|[(? & _)|[(? & _)|[(? & _)|[(? & _)|[(? & _)|(? & _)]]]]]];
      [done|congruence..].
Qed.

(** X10: on every reachable state the slots below the counter are
    exactly the created sessions: each has an end time strictly after
    its start time and within 256 bits, at least two candidates, a
    tally with one entry per candidate, and is either active or
    calculated, never both and never neither; while it is active
    [getWinners] is not ready. *)
Theorem sessions_below_counter_are_created (st : State) (sid : uint) :
  reachable keccak256 st →
  (sid < votingSessionCount st)%N →
  let s := session_at st sid in
  votingSessions st !! sid = Some s ∧
  (startTimestamp s < endTimestamp s ≤ MAX_UINT)%N ∧
  2 ≤ length (candidates s) ∧
  length (finalTally s) = length (candidates s) ∧
  isActive s = negb (resultsCalculated s) ∧
  (isActive s = true →
   transact (getWinners sid) st = (st, inl ResultsNotReady)).
Proof.
  intros Hreach Hsid s. subst s.
  destruct (state_dense_session_at st sid (reachable_dense _ _ Hreach) Hsid)
    as [Hl [Hw _ Hp]].
  pose proof (state_ok_session_at st sid (reachable_ok _ _ Hreach))
    as [Hlen _ _ _ Hcr].
  repeat split; try done; try apply Hw.
  - apply Hcr. destruct (isActive (session_at st sid)); [by left|right].
    by destruct (resultsCalculated (session_at st sid)).
  - intros Hact. apply getWinners_not_ready. rewrite Hact in Hp.
    by destruct (resultsCalculated (session_at st sid)).
Qed.

(** X11: on every reachable state the candidates of every session are
    pairwise distinct strings, and whatever [getWinners] returns is a
    list of pairwise distinct names that are candidates of the session,
    in the order of the candidate list. *)
Theorem candidates_and_winners_are_distinct (st : State) (sid : uint) :
  reachable keccak256 st →
  let s := session_at st sid in
  NoDup (candidates s) ∧
  ∀ winners, transact (getWinners sid) st = (st, inr winners) →
             sublist winners (candidates s) ∧ NoDup winners ∧
             length winners ≤ length (candidates s).
Proof.
  intros Hreach s. subst s.
  pose proof (state_ok_session_at st sid (reachable_ok _ _ Hreach))
    as [Hlen _ _ _ _].
  assert (Hnd : NoDup (candidates (session_at st sid))).
  { destruct (decide (sid < votingSessionCount st)%N) as [Hsid|Hsid].
    - by destruct (state_dense_session_at st sid
                     (reachable_dense _ _ Hreach) Hsid) as [_ [_ ? _]].
    - rewrite (session_at_None st sid).
      + constructor.
      + apply state_ok_fresh; [by apply (reachable_ok keccak256)|lia]. }
  split; [done|]. intros winners. unfold transact.
  rewrite getWinners_run by done.
  destruct (resultsCalculated (session_at st sid)); [|done].
  intros [= <-]. pose proof (winners_sublist _ Hlen) as Hsub.
  repeat split; try done.
  - by eapply sublist_NoDup.
  - by apply sublist_length.
Qed.

(** X12: on every reachable state the tally of a session is what the
    log says: the count [getTally] returns for a candidate is the
    number of [VoteCast] events of that session for that candidate. *)
Theorem tally_is_the_count_of_vote_events (st : State) (sid : uint) :
  reachable keccak256 st →
  ∃ tally, transact (View.getTally sid) st = (st, inr tally) ∧
           ∀ i t, tally !! i = Some t → t = votes_in_log sid i (events st).
Proof.
  intros Hreach. exists (finalTally (session_at st sid)).
  split; [apply getTally_run|].
  apply (log_tally st (reachable_log_ok _ _ Hreach)).
Qed.

(** X13: on every reachable state [hasVoted] answers true for an
    identity and a session exactly when the log holds a [VoteCast]
    event of that identity for that session. *)
Theorem hasVoted_iff_vote_event (st : State) (sid : uint) (v : address) :
  reachable keccak256 st →
  transact (View.hasVoted sid v) st = (st, inr true) ↔
  ∃ idx, VoteCast sid v idx ∈ events st.
Proof.
  intros Hreach. rewrite hasVoted_run.
  rewrite <- (log_voters st (reachable_log_ok _ _ Hreach)). split.
  - intros [= H]. by apply bool_decide_eq_true in H.
  - intros H. by rewrite bool_decide_eq_true_2.
Qed.

(** X14: on every reachable state, a [ResultsCalculated] event in the
    log belongs to a session whose results are calculated, and the
    tally it carries is the tally [getTally] returns now, the one
    [getWinners] answers from. *)
Theorem results_event_carries_final_tally (st : State) (sid : uint)
    (tally : list uint) :
  reachable keccak256 st →
  ResultsCalculated sid tally ∈ events st →
  resultsCalculated (session_at st sid) = true ∧
  transact (View.getTally sid) st = (st, inr tally) ∧
  transact (getWinners sid) st =
    (st, inr ((λ i, candidates (session_at st sid) !!! i) <$> top_indices tally)).
Proof.
  intros Hreach Hev.
  destruct (log_results st (reachable_log_ok _ _ Hreach) sid tally Hev)
    as [Hrc Ht].
  pose proof (state_ok_session_at st sid (reachable_ok _ _ Hreach))
    as [Hlen _ _ _ _].
  rewrite getTally_run, Ht. repeat split; [done|].
  unfold transact. rewrite getWinners_run, Hrc by done.
  unfold winners_of. by rewrite Ht.
Qed.

(** X15: on every reachable state the [VotingSessionCreated] events of
    the log carry the ids 0, 1, 2, ... up to the counter, in this order,
    and each carries the title, the candidates and the two timestamps
    that [getSessionInfo] returns for its id. *)
Theorem created_events_match_sessions (st : State) :
  reachable keccak256 st →
  sessions_in_log (events st) =
    N.of_nat <$> seq 0 (N.to_nat (votingSessionCount st)) ∧
  ∀ sid t c startTs endTs,
    VotingSessionCreated sid t c startTs endTs ∈ events st →
    ∃ active calculated,
      transact (View.getSessionInfo sid) st =
        (st, inr (t, c, active, calculated, startTs, endTs)).
Proof.
  intros Hreach. pose proof (reachable_log_ok _ _ Hreach) as Hlog.
  split; [apply (log_sessions st Hlog)|].
  intros sid t c startTs endTs Hev.
  destruct (log_created st Hlog sid t c startTs endTs Hev)
    as (<- & <- & <- & <-).
  eexists _, _. apply getSessionInfo_run.
Qed.

(** X16: the voting window and the finalization window of a session do
    not meet: if on some state a vote at time [now] and a
    [calculateResults] at time [now'] on the same session would both be
    accepted, then [now] is strictly before [now']. *)
Theorem voting_ends_before_finalization (st st1 st2 : State)
    (sid idx : uint) (a b : address) (now now' : uint) (r1 r2 : option uint) :
  execute keccak256 st (mkTx a now (Vote sid idx)) = (st1, inr r1) →
  execute keccak256 st (mkTx b now' (CalculateResults sid)) = (st2, inr r2) →
  (now ≤ endTimestamp (session_at st sid) < now')%N.
Proof.
  rewrite execute_vote, execute_calculate. intros Hv Hc.
  destruct (vote_cases sid idx a now st)
    as [(_ & Hr)|[(_ & _ & Hr)|[(_ & _ & _ & Hr)|[(_ & _ & _ & _ & Hr)|
        [(_ & _ & _ & _ & _ & Hr)|[(_ & _ & _ & _ & _ & Hr)|
        (_ & Hend & _ & _ & t & _ & _ & Hr)]]]]]];
    rewrite Hr in Hv; cbn [tag] in Hv; try done.
  destruct (calculateResults_cases sid now' st)
    as [(_ & Hr')|[(_ & _ & Hr')|[(_ & _ & _ & Hr')|[(_ & _ & _ & _ & Hr')|
        (_ & _ & Hend' & _ & Hr')]]]]; rewrite Hr' in Hc; cbn [tag] in Hc;
    first [done|lia].
Qed.

(** X17: votes are never withdrawn: whatever calls follow, an identity
    that [hasVoted] reports for a session stays reported, and no count
    of a session below the counter ever decreases. *)
Theorem votes_are_never_withdrawn (st : State) (sid : uint) (txs : list Tx)
    (v : address) (i : nat) (t : uint) :
  (sid < votingSessionCount st)%N →
  let st' := run keccak256 st txs in
  (transact (View.hasVoted sid v) st = (st, inr true) →
   transact (View.hasVoted sid v) st' = (st', inr true)) ∧
  (finalTally (session_at st sid) !! i = Some t →
   ∃ t', finalTally (session_at st' sid) !! i = Some t' ∧ (t ≤ t')%N).
Proof.
  intros Hsid st'. split.
  - rewrite !hasVoted_run. intros [= H]. apply bool_decide_eq_true in H.
    rewrite bool_decide_eq_true_2; [done|]. by apply run_hasVoted.
  - by apply run_tally_mono.
Qed.

(** X18: a call that fails emits nothing, and an accepted call appends
    exactly one event to the log, an event of the session it targets;
    no call removes or alters an earlier event. *)
Theorem accepted_call_emits_one_event (st : State) (tx : Tx) :
  match execute keccak256 st tx with
  | (st', inl _) => events st' = events st
  | (st', inr _) =>
      ∃ ev, events st' = events st ++ [ev] ∧ event_session ev = target st tx
  end.
Proof.
  unfold target.
  destruct (execute_cases keccak256 st tx)
    as [[e ->]|[(t & c & d & -> & _ & _ & _ & _ & _ & ->)|
       [(sid & idx & t & -> & _ & _ & _ & _ & _ & _ & ->)|
        (sid & -> & _ & _ & _ & _ & ->)]]]; [done|..];
    eexists; (split; [reflexivity|done]).
Qed.

End Extras.

(** ** The further properties on the fruit poll *)

Lemma vote_outcome_on_reachable_witness :
  reachable digest fruit_open ∧
  (execute digest fruit_open (mkTx 4%N 140%N (Vote 0%N 2%N))).2 = inr None ∧
  (execute digest fruit_open (mkTx 4%N 140%N (Vote 0%N 3%N))).2 =
    inl InvalidCandidateIndex.
Proof.
  split; [exact fruit_open_reachable|].
  rewrite !(vote_outcome_on_reachable digest fruit_open _ _ _ _
              fruit_open_reachable).
  split; vm_compute; reflexivity.
Defined.

Lemma calculateResults_outcome_on_reachable_witness :
  reachable digest fruit_open ∧
  (execute digest fruit_open (mkTx 9%N 160%N (CalculateResults 0%N))).2 =
    inl SessionStillActive.
Proof.
  split; [exact fruit_open_reachable|].
  rewrite (calculateResults_outcome_on_reachable digest fruit_open _ _ _
             fruit_open_reachable).
  vm_compute. reflexivity.
Defined.

Lemma created_session_reads_back_witness :
  let st' := (execute digest init fruit_create).1 in
  reachable digest init ∧
  execute digest init fruit_create = (st', inr (Some 0%N)) ∧
  transact (View.getSessionInfo 0%N) st' =
    (st', inr ("Best fruit", ["Banana"; "Watermelon"; "Papaya"],
               true, false, 100%N, 160%N)) ∧
  transact (View.getTally 0%N) st' = (st', inr [0%N; 0%N; 0%N]).
Proof.
  intros st'.
  assert (Hex : execute digest init fruit_create = (st', inr (Some 0%N)))
    by (vm_compute; reflexivity).
  split; [exact (reachable_init digest)|]. split; [exact Hex|].
  destruct (created_session_reads_back digest init st' 9%N 100%N "Best fruit"
              ["Banana"; "Watermelon"; "Papaya"] 60%N (Some 0%N)
              (reachable_init digest) Hex) as (_ & Hinfo & Htally & _).
  split; [exact Hinfo|exact Htally].
Defined.

Lemma unknown_session_reads_as_empty_witness :
  reachable digest fruit_open ∧
  (votingSessionCount fruit_open ≤ 5)%N ∧
  transact (View.getTally 5%N) fruit_open = (fruit_open, inr []) ∧
  execute digest fruit_open (mkTx 9%N 161%N (CalculateResults 5%N)) =
    (fruit_open, inl UnknownSession).
Proof.
  assert (Hs : (votingSessionCount fruit_open ≤ 5)%N)
    by (vm_compute; discriminate).
  split; [exact fruit_open_reachable|]. split; [exact Hs|].
  destruct (unknown_session_reads_as_empty digest fruit_open 5%N 9%N 161%N
              fruit_open_reachable Hs) as (_ & Htally & _ & _ & Hcalc).
  split; [exact Htally|exact Hcalc].
Defined.


Lemma session_data_is_immutable_witness :
  (0 < votingSessionCount fruit_open)%N ∧
  candidates (session_at (run digest fruit_open fruit_more) 0%N) =
    candidates (session_at fruit_open 0%N).
Proof.
  assert (Hs : (0 < votingSessionCount fruit_open)%N)
    by (vm_compute; reflexivity).
  split; [exact Hs|].
  exact (proj1 (proj2 (session_data_is_immutable digest fruit_open 0%N
                         fruit_more Hs))).
Defined.

Lemma finalized_session_is_frozen_witness :
  reachable digest fruit_final ∧
  resultsCalculated (session_at fruit_final 0%N) = true ∧
  session_at (run digest fruit_final fruit_more) 0%N =
    session_at fruit_final 0%N.
Proof.
  assert (Hc : resultsCalculated (session_at fruit_final 0%N) = true)
    by (vm_compute; reflexivity).
  split; [exact fruit_final_reachable|]. split; [exact Hc|].
  exact (proj1 (finalized_session_is_frozen digest fruit_final 0%N fruit_more
                  fruit_final_reachable Hc)).
Defined.

Lemma finalization_happens_once_witness :
  let st1 := (execute digest fruit_open fruit_finalize).1 in
  let st' := run digest st1 fruit_more in
  execute digest fruit_open fruit_finalize = (st1, inr None) ∧
  execute digest st' (mkTx 7%N 200%N (CalculateResults 0%N)) =
    (st', inl AlreadyFinalized).
Proof.
  intros st1 st'.
  assert (Hex : execute digest fruit_open fruit_finalize = (st1, inr None))
    by (vm_compute; reflexivity).
  split; [exact Hex|].
  exact (proj1 (finalization_happens_once digest fruit_open st1 0%N 0%N
                  9%N 7%N 161%N 200%N None fruit_more Hex)).
Defined.

Lemma sessions_below_counter_are_created_witness :
  reachable digest fruit_open ∧
  (0 < votingSessionCount fruit_open)%N ∧
  (startTimestamp (session_at fruit_open 0%N) <
     endTimestamp (session_at fruit_open 0%N) ≤ MAX_UINT)%N.
Proof.
  assert (Hs : (0 < votingSessionCount fruit_open)%N)
    by (vm_compute; reflexivity).
  split; [exact fruit_open_reachable|]. split; [exact Hs|].
  exact (proj1 (proj2 (sessions_below_counter_are_created digest fruit_open
                         0%N fruit_open_reachable Hs))).
Defined.

Lemma candidates_and_winners_are_distinct_witness :
  reachable digest fruit_final ∧
  NoDup (candidates (session_at fruit_final 0%N)).
Proof.
  split; [exact fruit_final_reachable|].
  exact (proj1 (candidates_and_winners_are_distinct digest fruit_final 0%N
                  fruit_final_reachable)).
Defined.

Lemma tally_is_the_count_of_vote_events_witness :
  reachable digest fruit_open ∧
  ∃ tally, transact (View.getTally 0%N) fruit_open = (fruit_open, inr tally) ∧
           ∀ i t, tally !! i = Some t →
                  t = votes_in_log 0%N i (events fruit_open).
Proof.
  split; [exact fruit_open_reachable|].
  exact (tally_is_the_count_of_vote_events digest fruit_open 0%N
           fruit_open_reachable).
Defined.

Lemma hasVoted_iff_vote_event_witness :
  reachable digest fruit_open ∧
  (transact (View.hasVoted 0%N 1%N) fruit_open = (fruit_open, inr true) ↔
   ∃ idx, VoteCast 0%N 1%N idx ∈ events fruit_open).
Proof.
  split; [exact fruit_open_reachable|].
  exact (hasVoted_iff_vote_event digest fruit_open 0%N 1%N
           fruit_open_reachable).
Defined.

Lemma results_event_carries_final_tally_witness :
  reachable digest fruit_final ∧
  ResultsCalculated 0%N [1%N; 2%N; 0%N] ∈ events fruit_final ∧
  transact (View.getTally 0%N) fruit_final =
    (fruit_final, inr [1%N; 2%N; 0%N]).
Proof.
  assert (Hev : ResultsCalculated 0%N [1%N; 2%N; 0%N] ∈ events fruit_final).
  { vm_compute. do 4 apply list_elem_of_further. apply list_elem_of_here. }
  split; [exact fruit_final_reachable|]. split; [exact Hev|].
  exact (proj1 (proj2 (results_event_carries_final_tally digest fruit_final
                         0%N [1%N; 2%N; 0%N] fruit_final_reachable Hev))).
Defined.

Lemma created_events_match_sessions_witness :
  reachable digest fruit_open ∧
  sessions_in_log (events fruit_open) =
    N.of_nat <$> seq 0 (N.to_nat (votingSessionCount fruit_open)).
Proof.
  split; [exact fruit_open_reachable|].
  exact (proj1 (created_events_match_sessions digest fruit_open
                  fruit_open_reachable)).
Defined.

Lemma voting_ends_before_finalization_witness :
  let vote_tx := mkTx 4%N 140%N (Vote 0%N 2%N) in
  execute digest fruit_open vote_tx =
    ((execute digest fruit_open vote_tx).1, inr None) ∧
  execute digest fruit_open fruit_finalize =
    ((execute digest fruit_open fruit_finalize).1, inr None) ∧
  (140 ≤ endTimestamp (session_at fruit_open 0%N) < 161)%N.
Proof.
  intros vote_tx.
  assert (Hv : execute digest fruit_open vote_tx =
               ((execute digest fruit_open vote_tx).1, inr None))
    by (vm_compute; reflexivity).
  assert (Hc : execute digest fruit_open fruit_finalize =
               ((execute digest fruit_open fruit_finalize).1, inr None))
    by (vm_compute; reflexivity).
  split; [exact Hv|]. split; [exact Hc|].
  exact (voting_ends_before_finalization digest fruit_open _ _ 0%N 2%N
           4%N 9%N 140%N 161%N None None Hv Hc).
Defined.

Lemma votes_are_never_withdrawn_witness :
  (0 < votingSessionCount fruit_open)%N ∧
  finalTally (session_at fruit_open 0%N) !! 1 = Some 2%N ∧
  ∃ t', finalTally (session_at (run digest fruit_open fruit_more) 0%N) !! 1
          = Some t' ∧ (2 ≤ t')%N.
Proof.
  assert (Hs : (0 < votingSessionCount fruit_open)%N)
    by (vm_compute; reflexivity).
  assert (Ht : finalTally (session_at fruit_open 0%N) !! 1 = Some 2%N)
    by (vm_compute; reflexivity).
  split; [exact Hs|]. split; [exact Ht|].
  exact (proj2 (votes_are_never_withdrawn digest fruit_open 0%N fruit_more
                  1%N 1 2%N Hs) Ht).
Defined.
